(** * open-balena-api: the platform data-access helpers

    A shallow embedding of [src/platform/index.ts]: the lookup-or-insert and
    update-or-insert primitives, the transaction wrappers, the per-request
    memoisation of the affected ids and the cascading-delete pre-run hook.

    Promises are run to completion in program order (one request is a
    single cooperative thread), so a promise is the outcome it settles to
    and a chain of [.then] is a sequence of steps over an explicit world:
    the JS heap, the resource store behind the pinejs API, the per-request
    custom properties and the log of calls that left the module. *)

From stdpp Require Import base option list strings gmap.
From Stdlib Require Import ZArith Lia.

Local Open Scope string_scope.
Local Open Scope list_scope.
Local Open Scope nat_scope.
Set Warnings "-register-all".

(** ** JS data *)

(** Plain data as it travels in filters and bodies. The fields of an object
    are kept in property order. *)
Inductive json : Type :=
  | JNull
  | JBool (b : bool)
  | JNum (n : Z)
  | JStr (s : string)
  | JObj (fields : list (string * json)).

Abbreviation jobj := (list (string * json)) (only parsing).

(** A settled promise: resolved with a value or rejected with a reason. *)
Inductive exn : Type :=
  | Error (message : string)
  | Failure (reason : json).

Inductive Outcome (A : Type) : Type :=
  | Resolved (a : A)
  | Rejected (e : exn).
Arguments Resolved {A} a.
Arguments Rejected {A} e.

Module Lodash.

(** [object[key]]; [None] is [undefined]. *)
Fixpoint get (object : jobj) (key : string) : option json :=
  match object with
  | [] => None
  | (k, v) :: rest => if String.eqb k key then Some v else get rest key
  end.

(** [object[key] = value]: an own property keeps its place, a new one goes
    last. *)
Fixpoint set (object : jobj) (key : string) (value : json) : jobj :=
  match object with
  | [] => [(key, value)]
  | (k, v) :: rest =>
      if String.eqb k key then (k, value) :: rest
      else (k, v) :: set rest key value
  end.

(** [_.assign(object, source)]: every own property of [source] is
    assigned, in order. *)
Definition assign (object source : jobj) : jobj :=
  fold_left (fun o kv => set o kv.1 kv.2) source object.

(** One step of [_.merge]: the value that ends up under a key whose
    destination value is [objValue] and whose source value is [srcValue].
    A source object is merged recursively into the destination object (a
    new empty object when the destination holds none); any other source
    value is assigned as it is. *)
Fixpoint mergeValue (objValue : option json) (srcValue : json) : json :=
  match srcValue with
  | JObj source =>
      JObj ((fix each (object : jobj) (source : list (string * json)) : jobj :=
               match source with
               | [] => object
               | (key, v) :: rest =>
                   each (set object key (mergeValue (get object key) v)) rest
               end)
              (match objValue with Some (JObj o) => o | _ => [] end)
              source)
  | _ => srcValue
  end.

(** [_.merge(object, source)] on the contents of the two objects. *)
Definition merge (object source : jobj) : jobj :=
  fold_left (fun o kv => set o kv.1 (mergeValue (get o kv.1) kv.2)) source object.

End Lodash.

(** ** The JS heap

    The objects a caller hands over ([filter], [updateFields], [body]) and
    the ones the module creates are cells of a heap, named by their index;
    [_.cloneDeep] allocates a cell and [_.merge] overwrites one in place.
    Nested objects are owned by the object that holds them. *)
Abbreviation ref := nat (only parsing).
Abbreviation Heap := (list jobj) (only parsing).

Definition deref (h : Heap) (r : ref) : jobj := default [] (h !! r).

Definition cloneDeep (h : Heap) (value : ref) : ref * Heap :=
  (List.length h, h ++ [deref h value]).

Definition mergeInto (h : Heap) (object source : ref) : Heap :=
  <[object := Lodash.merge (deref h object) (deref h source)]> h.

(** ** The pinejs boundary *)

Definition Tx : Type := nat.

(** The request a call is made on behalf of: the [root] principal or the
    request being served. *)
Inductive Req : Type :=
  | root
  | incoming (n : nat).

Record Passthrough : Type := mkPassthrough { req : Req; tx : option Tx }.

Inductive Vocabulary : Type := Auth | resin.

(** A [PinejsClient]: the model it talks to and the passthrough bound by
    [clone]. *)
Record PinejsClient : Type :=
  mkClient { model : Vocabulary; passthrough : option Passthrough }.

Definition authApi : PinejsClient := mkClient Auth None.
Definition resinApi : PinejsClient := mkClient resin None.

Definition clone (api : PinejsClient) (p : Passthrough) : PinejsClient :=
  mkClient (model api) (Some p).

Inductive Select : Type :=
  | Field (name : string)
  | Fields (names : list string).

Inductive Filter : Type :=
  | Match (fields : jobj)
  | In_ (field : string) (ids : list Z).

Record GetOptions : Type := mkGet { select : Select; filter : Filter }.

(** The arguments of a hook: [request] names the request object whose
    [custom] properties the hooks of one request share. *)
Record HookArgs : Type :=
  mkArgs { hook_api : PinejsClient; hook_req : Req; request : nat;
           hook_tx : option Tx }.

(** The promise of the affected ids, with its identity. *)
Record Promise : Type := mkPromise { pid : nat; settled : Outcome (list Z) }.

Inductive Event : Type :=
  | EvGet (api : PinejsClient) (resource : string) (options : GetOptions)
  | EvPost (api : PinejsClient) (resource : string) (body : jobj)
           (returnResource : bool)
  | EvPatch (api : PinejsClient) (resource : string) (id : option json)
            (body : jobj)
  | EvDelete (api : PinejsClient) (resource : option string) (filter : Filter)
  | EvCapture (err : exn) (message : string) (req : Req)
  | EvAffectedIds (args : HookArgs)
  | EvBegin (tx : Tx)
  | EvCommit (tx : Tx)
  | EvRollback (tx : Tx).

(** What the module consumes and does not implement: the four verbs of the
    resource API, the resolution of the affected ids and [JSON.stringify]. *)
Class Pinejs (Store : Type) : Type := {
  pine_get : PinejsClient → string → GetOptions → Store →
             Outcome (list jobj) * Store;
  pine_post : PinejsClient → string → jobj → bool → Store →
              Outcome jobj * Store;
  pine_patch : PinejsClient → string → option json → jobj → Store →
               Outcome unit * Store;
  pine_delete : PinejsClient → option string → Filter → Store →
                Outcome unit * Store;
  pine_getAffectedIds : HookArgs → Store → Outcome (list Z) * Store;
  JSON_stringify : jobj → string
}.

(** ** The world and the steps over it *)

Record World (Store : Type) : Type := mkWorld {
  heap : Heap;
  store : Store;
  custom : gmap nat Promise;   (* request.custom.affectedIds, when set *)
  promises : nat;              (* promises of affected ids created so far *)
  transactions : nat;          (* transactions opened so far *)
  log : list Event
}.
Arguments mkWorld {Store}.
Arguments heap {Store}.
Arguments store {Store}.
Arguments custom {Store}.
Arguments promises {Store}.
Arguments transactions {Store}.
Arguments log {Store}.

Definition Async (Store A : Type) : Type :=
  World Store → Outcome A * World Store.

Section Steps.
Context {Store : Type}.

Definition with_heap (h : Heap) (w : World Store) : World Store :=
  mkWorld h (store w) (custom w) (promises w) (transactions w) (log w).

Definition with_store (s : Store) (w : World Store) : World Store :=
  mkWorld (heap w) s (custom w) (promises w) (transactions w) (log w).

Definition record (ev : Event) (w : World Store) : World Store :=
  mkWorld (heap w) (store w) (custom w) (promises w) (transactions w)
          (log w ++ [ev]).

Definition resolve {A} (a : A) : Async Store A := fun w => (Resolved a, w).

Definition throw {A} (e : exn) : Async Store A := fun w => (Rejected e, w).

(** [p.then(k)] *)
Definition andThen {A B} (p : Async Store A) (k : A → Async Store B) :
  Async Store B :=
  fun w => match p w with
           | (Resolved a, w') => k a w'
           | (Rejected e, w') => (Rejected e, w')
           end.

(** [p.tapCatch(handler)]: the handler sees the reason and the rejection
    goes on, unless the handler itself fails. *)
Definition tapCatch {A} (p : Async Store A) (handler : exn → Async Store unit) :
  Async Store A :=
  fun w => match p w with
           | (Resolved a, w') => (Resolved a, w')
           | (Rejected e, w') =>
               match handler e w' with
               | (Resolved _, w'') => (Rejected e, w'')
               | (Rejected e', w'') => (Rejected e', w'')
               end
           end.

(** Reading an object through its reference. *)
Definition load (r : ref) : Async Store jobj :=
  fun w => (Resolved (deref (heap w) r), w).

Definition cloneDeep_ (value : ref) : Async Store ref :=
  fun w => let '(r, h) := cloneDeep (heap w) value in (Resolved r, with_heap h w).

Definition merge_ (object source : ref) : Async Store unit :=
  fun w => (Resolved tt, with_heap (mergeInto (heap w) object source) w).

(** [captureException(err, message, { req })]: the sink of
    [platform/errors], fire and forget. *)
Definition captureException (err : exn) (message : string) (r : Req) :
  Async Store unit :=
  fun w => (Resolved tt, record (EvCapture err message r) w).

End Steps.

Notation "'let*' x ':=' p 'in' k" := (andThen p (fun x => k))
  (at level 10, x name, p at level 100, k at level 200).

Notation "p ';;' k" := (andThen p (fun _ => k))
  (at level 100, k at level 200, right associativity).

(** [Promise.mapSeries(items, f)]: one item after the other, stopping at the
    first rejection. *)
Fixpoint mapSeries {Store A B} (f : A → Async Store B) (items : list A) :
  Async Store (list B) :=
  match items with
  | [] => resolve []
  | x :: rest =>
      let* y := f x in
      let* ys := mapSeries f rest in
      resolve (y :: ys)
  end.

Section Api.
Context {Store : Type} `{Pinejs Store}.

(** A call of a verb is logged, then the store answers. *)
Definition call {A} (ev : Event) (verb : Store → Outcome A * Store) :
  Async Store A :=
  fun w => let w1 := record ev w in
           let '(r, s) := verb (store w1) in (r, with_store s w1).

Definition api_get (api : PinejsClient) (resource : string)
    (options : GetOptions) : Async Store (list jobj) :=
  call (EvGet api resource options) (pine_get api resource options).

Definition api_post (api : PinejsClient) (resource : string) (body : jobj)
    (returnResource : bool) : Async Store jobj :=
  call (EvPost api resource body returnResource)
       (pine_post api resource body returnResource).

Definition api_patch (api : PinejsClient) (resource : string)
    (id : option json) (body : jobj) : Async Store unit :=
  call (EvPatch api resource id body) (pine_patch api resource id body).

Definition api_delete (api : PinejsClient) (resource : option string)
    (f : Filter) : Async Store unit :=
  call (EvDelete api resource f) (pine_delete api resource f).

End Api.

(** ** platform/index.ts *)

(** A value that may be [undefined], as a string or as a property key. *)
Definition js_string (s : option string) : string := default "undefined" s.

(** A declared dependent: [[dependent, resourceIdField, subDependent?]]. *)
Definition Dependent : Type := string * string * option (list string).

Section Platform.
Context {Store : Type} `{Pinejs Store}.

Definition _getOrInsertId (api : PinejsClient) (resource : string)
    (body : ref) (tx : option Tx) : Async Store jobj :=
  let apiTx := clone api (mkPassthrough root tx) in
  let* filter := load body in
  let* results := api_get apiTx resource (mkGet (Field "id") (Match filter)) in
  match results with
  | [] =>
      let* payload := load body in
      let* idObj := api_post apiTx resource payload false in
      let* fields := load body in
      resolve (Lodash.assign (Lodash.assign [] idObj) fields)
  | first :: _ => resolve first
  end.

Definition not_unique (resource : string) (filter : jobj) : exn :=
  Error ("updateOrInsert filter not unique for '" +:+ resource +:+ "': '"
         +:+ JSON_stringify filter +:+ "'").

Definition _updateOrInsert (api : PinejsClient) (resource : string)
    (filter : ref) (updateFields : ref) (tx : option Tx) : Async Store jobj :=
  let apiTx := clone api (mkPassthrough root tx) in
  let* query := load filter in
  let* results := api_get apiTx resource (mkGet (Fields ["id"]) (Match query)) in
  match results with
  | [] =>
      (* results.length === 0 *)
      let* body := cloneDeep_ filter in
      merge_ body updateFields ;;
      let* payload := load body in
      api_post apiTx resource payload false
  | _ :: _ :: _ =>
      (* results.length > 1 *)
      let* shown := load filter in
      throw (not_unique resource shown)
  | [first] =>
      (* do a patch with the id *)
      let* fields := load updateFields in
      api_patch apiTx resource (Lodash.get first "id") fields ;;
      resolve first
  end.

Definition getOrInsertId (resource : string) (body : ref) (tx : option Tx) :
  Async Store jobj := _getOrInsertId authApi resource body tx.

Definition getOrInsertModelId (resource : string) (body : ref)
    (tx : option Tx) : Async Store jobj :=
  _getOrInsertId resinApi resource body tx.

Definition updateOrInsert (resource : string) (filter updateFields : ref)
    (tx : option Tx) : Async Store jobj :=
  _updateOrInsert authApi resource filter updateFields tx.

Definition updateOrInsertModel (resource : string) (filter updateFields : ref)
    (tx : option Tx) : Async Store jobj :=
  _updateOrInsert resinApi resource filter updateFields tx.

(** Modelled from the spec: [db.transaction] of the pinejs database layer,
    which is not part of these sources. It opens a new transaction, runs the
    operation with it, and commits when the operation resolves; when the
    operation fails it rolls back, which leaves the store as it was when the
    transaction was opened, and the failure goes on unchanged. *)
Definition db_transaction {A} (operation : Tx → Async Store A) :
  Async Store A :=
  fun w =>
    let t := transactions w in
    let opened :=
      mkWorld (heap w) (store w) (custom w) (promises w) (S t)
              (log w ++ [EvBegin t]) in
    match operation t opened with
    | (Resolved a, w') => (Resolved a, record (EvCommit t) w')
    | (Rejected e, w') =>
        (Rejected e, record (EvRollback t) (with_store (store w) w'))
    end.

(** A [TxFn] with its receiver: [fn.apply(this, [tx, ...args])]. *)
Definition TxFn (This Args R : Type) : Type :=
  This → Tx → Args → Async Store R.

Definition wrapInTransaction {This Args R} (fn : TxFn This Args R) :
  This → Args → Async Store R :=
  fun this args => db_transaction (fun tx => fn this tx args).

(** The wrapped function is called plainly, so its receiver is
    [undefined]. *)
Definition runInTransaction {This Args R} (fn : TxFn (option This) Args R)
    (args : Args) : Async Store R :=
  let wrappedFn := wrapInTransaction fn in
  wrappedFn None args.

(** Hook helpers *)

(** We store the affected ids in the custom props so we only have to fetch
    it once per request. The value stored and returned is the promise. *)
Definition getCurrentRequestAffectedIds (args : HookArgs) (w : World Store) :
  Promise * World Store :=
  match custom w !! request args with
  | None =>
      let '(ids, s) := pine_getAffectedIds args (store w) in
      let p := mkPromise (promises w) ids in
      (p, mkWorld (heap w) s (<[request args := p]> (custom w))
                  (S (promises w)) (transactions w)
                  (log w ++ [EvAffectedIds args]))
  | Some p => (p, w)
  end.

(** Waiting on a promise of affected ids. *)
Definition await (p : Promise) : Async Store (list Z) :=
  fun w => (settled p, w).

Definition deleteDependent (resource : string) (args : HookArgs)
    (resourceIds : list Z) (entry : Dependent) : Async Store unit :=
  let '(dependent, resourceIdField, subDependent) := entry in
  tapCatch
    (api_delete (hook_api args) (Some dependent)
                (In_ resourceIdField resourceIds))
    (fun err =>
       captureException err
         ("Error deleting resource '" +:+ dependent +:+ "' before deleting '"
          +:+ resource +:+ "' ")
         (hook_req args)) ;;
  match subDependent with
  | Some sub =>
      let depResource := sub !! 0%nat in
      let depFilter := sub !! 1%nat in
      tapCatch
        (api_delete (hook_api args) depResource
                    (In_ (js_string depFilter) resourceIds))
        (fun err =>
           captureException err ("Error deleting " +:+ js_string depResource)
                            (hook_req args))
  | None => resolve tt
  end.

(** The PRERUN handler that [addDeleteHookForDependents] registers for
    DELETE on [resource]. *)
Definition addDeleteHookForDependents (resource : string)
    (dependents : list Dependent) (args : HookArgs) : Async Store unit :=
  fun w =>
    let '(p, w1) := getCurrentRequestAffectedIds args w in
    (let* resourceIds := await p in
     match resourceIds with
     | [] => resolve tt
     | _ :: _ =>
         mapSeries (deleteDependent resource args resourceIds) dependents ;;
         resolve tt
     end) w1.

End Platform.

(** ** An in-memory store

    A small implementation of the pinejs boundary, to run the module on
    concrete requests: rows per resource, ids handed out in sequence,
    resources whose deletes fail, and the answers the resolution of the
    affected ids gives, one per invocation. *)
Module Memory.

Record Db : Type := mkDb {
  rows : list (string * jobj);
  next_id : Z;
  broken : list string;
  affected : list (Outcome (list Z))
}.

Fixpoint json_eqb (a b : json) : bool :=
  match a, b with
  | JNull, JNull => true
  | JBool x, JBool y => Bool.eqb x y
  | JNum x, JNum y => Z.eqb x y
  | JStr x, JStr y => String.eqb x y
  | JObj fa, JObj fb =>
      (fix all (fa fb : list (string * json)) : bool :=
         match fa, fb with
         | [], [] => true
         | (k, v) :: ra, (k', v') :: rb =>
             String.eqb k k' && json_eqb v v' && all ra rb
         | _, _ => false
         end) fa fb
  | _, _ => false
  end.

Definition matches (f : Filter) (row : jobj) : bool :=
  match f with
  | Match fields =>
      forallb (fun kv => match Lodash.get row kv.1 with
                         | Some v => json_eqb v kv.2
                         | None => false
                         end) fields
  | In_ field ids =>
      match Lodash.get row field with
      | Some (JNum n) => existsb (Z.eqb n) ids
      | _ => false
      end
  end.

Definition selected (resource : string) (f : Filter) (entry : string * jobj) :
  bool := String.eqb entry.1 resource && matches f entry.2.

Definition id_of (row : jobj) : jobj :=
  match Lodash.get row "id" with
  | Some v => [("id", v)]
  | None => []
  end.

Definition mem_get (api : PinejsClient) (resource : string)
    (options : GetOptions) (db : Db) : Outcome (list jobj) * Db :=
  (Resolved (map (fun entry => id_of entry.2)
                 (List.filter (selected resource (filter options)) (rows db))),
   db).

Definition mem_post (api : PinejsClient) (resource : string) (body : jobj)
    (returnResource : bool) (db : Db) : Outcome jobj * Db :=
  let id := [("id", JNum (next_id db))] in
  (Resolved id,
   mkDb (rows db ++ [(resource, Lodash.assign body id)]) (next_id db + 1)
        (broken db) (affected db)).

Definition mem_patch (api : PinejsClient) (resource : string)
    (id : option json) (body : jobj) (db : Db) : Outcome unit * Db :=
  let target := match id with Some v => [("id", v)] | None => [] end in
  (Resolved tt,
   mkDb (map (fun entry =>
                if selected resource (Match target) entry
                then (entry.1, Lodash.assign entry.2 body) else entry)
             (rows db))
        (next_id db) (broken db) (affected db)).

Definition mem_delete (api : PinejsClient) (resource : option string)
    (f : Filter) (db : Db) : Outcome unit * Db :=
  let name := js_string resource in
  if existsb (String.eqb name) (broken db)
  then (Rejected (Failure (JStr name)), db)
  else (Resolved tt,
        mkDb (List.filter (fun entry => negb (selected name f entry)) (rows db))
             (next_id db) (broken db) (affected db)).

Definition mem_getAffectedIds (args : HookArgs) (db : Db) :
  Outcome (list Z) * Db :=
  match affected db with
  | [] => (Resolved [], db)
  | answer :: later =>
      (answer, mkDb (rows db) (next_id db) (broken db) later)
  end.

(** The names of the fields, enough to tell filters apart. *)
Definition mem_stringify (o : jobj) : string :=
  "{" +:+ String.concat "," (map fst o) +:+ "}".

#[export] Instance mem : Pinejs Db := {
  pine_get := mem_get;
  pine_post := mem_post;
  pine_patch := mem_patch;
  pine_delete := mem_delete;
  pine_getAffectedIds := mem_getAffectedIds;
  JSON_stringify := mem_stringify
}.

Definition start (h : Heap) (db : Db) : World Db := mkWorld h db ∅ 0 0 [].

End Memory.

(** ** What the log says *)

Definition is_write (ev : Event) : bool :=
  match ev with
  | EvPost _ _ _ _ | EvPatch _ _ _ _ | EvDelete _ _ _ => true
  | _ => false
  end.

Definition is_delete (ev : Event) : bool :=
  match ev with
  | EvDelete _ _ _ => true
  | _ => false
  end.

Definition is_resolution (ev : Event) : bool :=
  match ev with
  | EvAffectedIds _ => true
  | _ => false
  end.

(** [mentions name message]: [name] occurs in [message]. *)
Fixpoint mentions (name message : string) : bool :=
  String.prefix name message ||
  match message with
  | EmptyString => false
  | String _ rest => mentions name rest
  end.

(** ** The cascade, as the list of deletes it is made of *)

(** One delete of the cascade and the message its failure is reported
    with. *)
Record Step : Type := mkStep {
  step_resource : option string;
  step_filter : Filter;
  step_message : string
}.

Definition dependent_step (resource : string) (ids : list Z)
    (dependent resourceIdField : string) : Step :=
  mkStep (Some dependent) (In_ resourceIdField ids)
         ("Error deleting resource '" +:+ dependent +:+ "' before deleting '"
          +:+ resource +:+ "' ").

Definition sub_step (ids : list Z) (sub : list string) : Step :=
  mkStep (sub !! 0%nat) (In_ (js_string (sub !! 1%nat)) ids)
         ("Error deleting " +:+ js_string (sub !! 0%nat)).

Definition steps_of (resource : string) (ids : list Z) (entry : Dependent) :
  list Step :=
  let '(dependent, resourceIdField, subDependent) := entry in
  dependent_step resource ids dependent resourceIdField ::
  match subDependent with
  | Some sub => [sub_step ids sub]
  | None => []
  end.

(** The deletes of a dependents list, in declared order, each sub-dependent
    right after its dependent. *)
Definition plan (resource : string) (ids : list Z) (dependents : list Dependent) :
  list Step := flat_map (steps_of resource ids) dependents.

Definition issue (api : PinejsClient) (st : Step) : Event :=
  EvDelete api (step_resource st) (step_filter st).

(** [Cascade api r steps s out s' evs]: running [steps] one after the other
    from store [s] ends in [out] with store [s'], having logged [evs]. A
    delete that succeeds lets the next one run; the first one that fails is
    reported and its reason is the outcome, and nothing else runs. *)
Inductive Cascade {Store} `{Pinejs Store} (api : PinejsClient) (r : Req) :
  list Step → Store → Outcome unit → Store → list Event → Prop :=
  | Cascade_done s :
      Cascade api r [] s (Resolved tt) s []
  | Cascade_next st rest s s1 out s2 evs :
      pine_delete api (step_resource st) (step_filter st) s = (Resolved tt, s1) →
      Cascade api r rest s1 out s2 evs →
      Cascade api r (st :: rest) s out s2 (issue api st :: evs)
  | Cascade_abort st rest s e s1 :
      pine_delete api (step_resource st) (step_filter st) s = (Rejected e, s1) →
      Cascade api r (st :: rest) s (Rejected e) s1
              [issue api st; EvCapture e (step_message st) r].

(** The same steps as one chain, the way the hook nests them. *)
Fixpoint cascade {Store} `{Pinejs Store} (api : PinejsClient) (r : Req)
    (steps : list Step) : Async Store unit :=
  match steps with
  | [] => resolve tt
  | st :: rest =>
      tapCatch (api_delete api (step_resource st) (step_filter st))
               (fun err => captureException err (step_message st) r) ;;
      cascade api r rest
  end.

(** Several calls of [getCurrentRequestAffectedIds], one after the other. *)
Fixpoint calls {Store} `{Pinejs Store} (argss : list HookArgs) (w : World Store) :
  list Promise * World Store :=
  match argss with
  | [] => ([], w)
  | args :: rest =>
      let '(p, w1) := getCurrentRequestAffectedIds args w in
      let '(ps, w2) := calls rest w1 in
      (p :: ps, w2)
  end.

(** The reading of the cascade in which every report of a failed delete
    names a parent of the resource that failed: the resource being deleted
    or one of its dependents. *)
Definition parents (resource : string) (dependents : list Dependent) :
  list string := resource :: map (λ entry, entry.1.1) dependents.

Definition report_names_parent {Store} `{Pinejs Store} (resource : string)
    (dependents : list Dependent) (args : HookArgs) (w : World Store) : Prop :=
  let run := addDeleteHookForDependents resource dependents args w in
  ∀ e message,
    run.1 = Rejected e →
    last (log run.2) = Some (EvCapture e message (hook_req args)) →
    existsb (λ parent, mentions parent message) (parents resource dependents)
    = true.

(** The events a run added to the log. *)
Definition added {Store} (w w' : World Store) : list Event :=
  drop (List.length (log w)) (log w').

(** ** Sample requests *)

Module Samples.
Import Memory.

(** The dependents of [device]. *)
Definition device_dependents : list Dependent :=
  [("device_config_variable", "device_id", None);
   ("device_environment_variable", "device_id",
    Some ["image_install"; "device_id"])].

Definition owned (id device : Z) : jobj :=
  [("id", JNum id); ("device_id", JNum device)].

Definition fleet : list (string * jobj) :=
  [("device", [("id", JNum 5)]);
   ("device_config_variable", owned 1 5);
   ("device_environment_variable", owned 2 5);
   ("image_install", owned 3 5);
   ("device_config_variable", owned 4 6)].

(** The arguments of the hooks of one DELETE request, and those of another
    hook of the same request. *)
Definition delete_args : HookArgs :=
  mkArgs (clone resinApi (mkPassthrough (incoming 1) (Some 0%nat)))
         (incoming 1) 0 (Some 0%nat).

Definition other_args : HookArgs :=
  mkArgs (clone resinApi (mkPassthrough root (Some 0%nat))) root 0
         (Some 0%nat).

Definition timeout : exn := Failure (JStr "timeout").

(** Device 5 is being deleted and every delete works. *)
Definition deleting : World Db := start [] (mkDb fleet 10 [] [Resolved [5%Z]]).

(** The same, with the deletes of [image_install] failing. *)
Definition deleting_broken : World Db :=
  start [] (mkDb fleet 10 ["image_install"] [Resolved [5%Z]]).

(** The filter of the DELETE matches no device. *)
Definition deleting_nothing : World Db :=
  start [] (mkDb fleet 10 [] [Resolved []]).

(** The first resolution of the affected ids fails, a second one would
    succeed. *)
Definition resolving_badly : World Db :=
  start [] (mkDb fleet 10 [] [Rejected timeout; Resolved [5%Z]]).

(** Two objects of a caller: a filter and the fields to update. *)
Definition by_name : jobj := [("name", JStr "ada")].
Definition new_email : jobj := [("email", JStr "ada@example.org")].
Definition caller_heap : list jobj := [by_name; new_email].

Definition ada (id : Z) : string * jobj :=
  ("user", [("id", JNum id); ("name", JStr "ada")]).

Definition no_ada : World Db := start caller_heap (mkDb [] 1 [] []).
Definition one_ada : World Db := start caller_heap (mkDb [ada 7] 8 [] []).
Definition two_adas : World Db :=
  start caller_heap (mkDb [ada 7; ada 8] 9 [] []).

(** An operation that writes twice and then fails or not. *)
Definition two_writes (fail : bool) : TxFn (Store := Db) unit unit unit :=
  fun _ tx _ =>
    let api := clone resinApi (mkPassthrough root (Some tx)) in
    api_post api "device" [("name", JStr "one")] false ;;
    api_post api "device" [("name", JStr "two")] false ;;
    if fail then throw (Error "boom") else resolve tt.

End Samples.

(** ** More readings of the log *)

(** The client a call of a verb went through. *)
Definition event_api (ev : Event) : option PinejsClient :=
  match ev with
  | EvGet api _ _ | EvPost api _ _ _ | EvPatch api _ _ _ | EvDelete api _ _ =>
      Some api
  | _ => None
  end.

Definition is_post (ev : Event) : bool :=
  match ev with
  | EvPost _ _ _ _ => true
  | _ => false
  end.

Definition is_patch (ev : Event) : bool :=
  match ev with
  | EvPatch _ _ _ _ => true
  | _ => false
  end.

Definition is_report (ev : Event) : bool :=
  match ev with
  | EvCapture _ _ _ => true
  | _ => false
  end.

(** The store once the deletes of [steps] have run on it, in order. *)
Definition after_deletes {Store} `{Pinejs Store} (api : PinejsClient)
    (steps : list Step) (s : Store) : Store :=
  fold_left
    (λ s st, (pine_delete api (step_resource st) (step_filter st) s).2)
    steps s.

(** ** A store that cannot be reached

    Every verb fails with the same reason and nothing is kept. *)
Module Offline.

Definition offline : exn := Failure (JObj [("code", JStr "ECONNREFUSED")]).

#[export] Instance unreachable : Pinejs unit := {
  pine_get := λ _ _ _ s, (Rejected offline, s);
  pine_post := λ _ _ _ _ s, (Rejected offline, s);
  pine_patch := λ _ _ _ _ s, (Rejected offline, s);
  pine_delete := λ _ _ _ s, (Rejected offline, s);
  pine_getAffectedIds := λ _ s, (Rejected offline, s);
  JSON_stringify := λ _, "{}"
}.

Definition cut_off : World unit :=
  mkWorld Samples.caller_heap tt ∅ 0 0 [].

End Offline.

(** ** Device configuration: the options and the root certificate

    The parts of [generateConfig] that are its own: the read of the
    self-signed root certificate and the copy of the device type's options
    from the request into the configuration. *)
Module DeviceConfig.

(** What the read of the certificate consumes: [stat] and [readFile] of
    [fs], the base64 encoding of [Buffer], and the sink of
    [platform/errors], here called without a request. *)
Class Node (S : Type) : Type := {
  statAsync : string → S → Outcome unit * S;
  readFileAsync : string → string → S → Outcome string * S;
  base64 : string → string;
  report : exn → string → S → S
}.

(** [p.catch(predicate, handler)] and [p.catch(handler)]. *)
Definition catchWhen {S A} (matches : exn → bool) (p : Async S A)
    (handler : exn → Async S A) : Async S A :=
  fun w => match p w with
           | (Resolved a, w') => (Resolved a, w')
           | (Rejected e, w') =>
               if matches e then handler e w' else (Rejected e, w')
           end.

Definition catchAll {S A} (p : Async S A) (handler : exn → Async S A) :
  Async S A := catchWhen (λ _, true) p handler.

(** The predicate [{ code: 'ENOENT' }]: an error object whose [code] is
    that string. *)
Definition is_ENOENT (e : exn) : bool :=
  match e with
  | Failure (JObj fields) =>
      match Lodash.get fields "code" with
      | Some (JStr code) => String.eqb code "ENOENT"
      | _ => false
      end
  | _ => false
  end.

Section Certificate.
Context {S : Type} `{Node S}.

Definition fs {A} (op : S → Outcome A * S) : Async S A :=
  fun w => let '(r, s) := op (store w) in (r, with_store s w).

Definition captureUnread (err : exn) : Async S (option string) :=
  fun w =>
    (Resolved None,
     with_store (report err "Self-signed root CA could not be read" (store w)) w).

(** [selfSignedRootPromise], for the value of [NODE_EXTRA_CA_CERTS];
    [None] is [undefined]. *)
Definition selfSignedRoot (caFile : option string) : Async S (option string) :=
  match caFile with
  | None | Some "" => resolve None
  | Some file =>
      catchAll
        (catchWhen is_ENOENT
           (fs (statAsync file) ;;
            let* pem := fs (readFileAsync file "utf8") in
            resolve (Some (base64 pem)))
           (λ _, resolve None))
        captureUnread
  end.

End Certificate.

(** An option of a device type; a group holds options. *)
Inductive DeviceTypeOption : Type :=
  mkOption (isGroup : bool) (name : string) (options : list DeviceTypeOption).

Definition isGroup (opt : DeviceTypeOption) : bool :=
  let 'mkOption g _ _ := opt in g.
Definition name (opt : DeviceTypeOption) : string :=
  let 'mkOption _ n _ := opt in n.
Definition options (opt : DeviceTypeOption) : list DeviceTypeOption :=
  let 'mkOption _ _ os := opt in os.

(** [_.includes(['network', 'advanced'], name)] *)
Definition handled_above (n : string) : bool :=
  existsb (String.eqb n) ["network"; "advanced"].

(** The iteratee of the [flatMap]. *)
Definition expand (opt : DeviceTypeOption) : list DeviceTypeOption :=
  if isGroup opt && handled_above (name opt) then []
  else if isGroup opt then options opt
  else [opt].

(** A configuration: property values, [None] for [undefined]. *)
Abbreviation Config := (list (string * option json)) (only parsing).

Fixpoint prop (config : Config) (key : string) : option (option json) :=
  match config with
  | [] => None
  | (k, v) :: rest => if String.eqb k key then Some v else prop rest key
  end.

Fixpoint put (config : Config) (key : string) (value : option json) : Config :=
  match config with
  | [] => [(key, value)]
  | (k, v) :: rest =>
      if String.eqb k key then (k, value) :: rest
      else (k, v) :: put rest key value
  end.

(** The end of the callback of [Promise.join]: every expanded option is
    read from the request, then the root certificate is added when there
    is one. *)
Definition fillConfig (param : string → option json)
    (deviceTypeOptions : list DeviceTypeOption) (rootCA : option string)
    (config : Config) : Config :=
  let config :=
    fold_left (λ config opt, put config (name opt) (param (name opt)))
              (flat_map expand deviceTypeOptions) config in
  match rootCA with
  | Some ca => put config "balenaRootCA" (Some (JStr ca))
  | None => config
  end.

(** A file system with one file, and a sink that counts. *)
Definition disk : Type := string * string * nat.

Definition missing : exn := Failure (JObj [("code", JStr "ENOENT")]).
Definition denied : exn := Failure (JObj [("code", JStr "EACCES")]).

#[export] Instance one_file : Node disk := {
  statAsync := λ path d,
    if String.eqb path d.1.1 then (Resolved tt, d)
    else if String.eqb path "/root/ca.pem" then (Rejected denied, d)
    else (Rejected missing, d);
  readFileAsync := λ path encoding d,
    if String.eqb path d.1.1 then (Resolved d.1.2, d)
    else (Rejected missing, d);
  base64 := λ pem, "b64:" +:+ pem;
  report := λ _ _ d, (d.1, S d.2)
}.

Definition machine : World disk :=
  mkWorld [] ("/etc/ca.pem", "PEM", 0) ∅ 0 0 [].

Definition raspberrypi_options : list DeviceTypeOption :=
  [mkOption true "network"
     [mkOption false "wifiSsid" []; mkOption false "wifiKey" []];
   mkOption true "advanced" [mkOption false "appUpdatePollInterval" []];
   mkOption true "storage"
     [mkOption false "disk" [];
      mkOption true "partitions" [mkOption false "boot" []]];
   mkOption false "hostname" []].

End DeviceConfig.

(** ** createActor

    [request.values] is passed in and the object as the hook leaves it is
    what the promise resolves to; a value that is [None] is [undefined].
    The post names no body, which the store sees as an empty one. *)
Definition createActor {Store} `{Pinejs Store} (args : HookArgs)
    (values : list (string * option json)) :
  Async Store (list (string * option json)) :=
  let* result :=
    api_post (mkClient Auth (Some (mkPassthrough root (hook_tx args))))
             "actor" [] false in
  resolve (DeviceConfig.put values "actor" (Lodash.get result "id")).

(** ** More sample requests *)

Module Cases.
Import Memory Samples.

(** A hook of another request, served at the same time. *)
Definition elsewhere_args : HookArgs :=
  mkArgs (clone resinApi (mkPassthrough (incoming 2) (Some 1%nat)))
         (incoming 2) 1 (Some 1%nat).

(** The dependents of [application]. *)
Definition application_dependents : list Dependent :=
  [("device", "belongs_to__application", None)].

(** What a request sends for the options of a device. *)
Definition sent (key : string) : option json :=
  if String.eqb key "hostname" then Some (JStr "pi")
  else if String.eqb key "partitions" then Some (JNum 2)
  else None.

Definition generated : list (string * option json) :=
  [("applicationId", Some (JNum 3)); ("wifiSsid", Some (JStr "home"))].

End Cases.

(** * Properties *)

(** ** Objects *)

Section LodashFacts.
Import Lodash.

Lemma get_set_eq (o : jobj) k v : get (set o k v) k = Some v.
Proof.
  induction o as [|[k' v'] o IH]; simpl.
  - by rewrite String.eqb_refl.
  - destruct (String.eqb_spec k' k) as [->|Hne]; simpl.
    + by rewrite String.eqb_refl.
    + destruct (String.eqb_spec k' k); [done|apply IH].
Qed.

Lemma get_set_ne (o : jobj) k k' v : k ≠ k' → get (set o k v) k' = get o k'.
Proof.
  intros Hne. induction o as [|[k0 v0] o IH]; simpl.
  - destruct (String.eqb_spec k k'); done.
  - destruct (String.eqb_spec k0 k) as [->|Hk]; simpl.
    + destruct (String.eqb_spec k k'); done.
    + destruct (String.eqb_spec k0 k'); [done|apply IH].
Qed.

Lemma get_None (o : jobj) k : k ∉ o.*1 → get o k = None.
Proof.
  induction o as [|[k0 v0] o IH]; simpl; [done|].
  intros Hk. apply not_elem_of_cons in Hk as [Hne Hk].
  destruct (String.eqb_spec k0 k); [congruence|by apply IH].
Qed.

(** A fold of assignments, each value computed from the key, the value held
    so far and the source value: a key of the source ends up with its
    computed value, any other key is left alone. *)
Lemma get_fold_set (f : option json → json → json) (source o : jobj) k :
  NoDup source.*1 →
  get (fold_left (fun o kv => set o kv.1 (f (get o kv.1) kv.2)) source o) k =
  match get source k with
  | Some v => Some (f (get o k) v)
  | None => get o k
  end.
Proof.
  revert o. induction source as [|[k0 v0] source IH]; intros o Hnd; [done|].
  apply NoDup_cons in Hnd as [Hk0 Hnd]. simpl. rewrite IH by done.
  destruct (String.eqb_spec k0 k) as [->|Hne].
  - by rewrite get_None, get_set_eq.
  - rewrite get_set_ne by done. done.
Qed.

Lemma get_assign (o source : jobj) k :
  NoDup source.*1 →
  get (assign o source) k =
  match get source k with Some v => Some v | None => get o k end.
Proof. intros Hnd. exact (get_fold_set (fun _ v => v) source o k Hnd). Qed.


(** Merging an object in is merging its fields into the object held (a new
    one when none is held). *)
Lemma mergeValue_object objValue source :
  mergeValue objValue (JObj source) =
  JObj (merge (match objValue with Some (JObj o) => o | _ => [] end) source).
Proof.
  destruct objValue as [[| | | |held]|]; simpl; f_equal; unfold merge;
    [generalize (@nil (string * json)) ..|generalize held
    |generalize (@nil (string * json))];
    induction source as [|[k v] source IH]; intros o; done || apply IH.
Qed.


Lemma has_set (o : jobj) k k' v : is_Some (get o k) → is_Some (get (set o k' v) k).
Proof.
  intros Hk. destruct (decide (k' = k)) as [->|Hne].
  - rewrite get_set_eq. eauto.
  - by rewrite get_set_ne.
Qed.

Lemma has_assign (o source : jobj) k :
  is_Some (get o k) → is_Some (get (assign o source) k).
Proof.
  unfold assign. revert o. induction source as [|[k0 v0] source IH]; intros o Hk.
  - done.
  - simpl. apply IH. by apply has_set.
Qed.

Lemma has_assign_source (o source : jobj) k :
  is_Some (get source k) → is_Some (get (assign o source) k).
Proof.
  revert o. induction source as [|[k0 v0] source IH]; intros o; simpl.
  - by intros [? ?].
  - destruct (String.eqb_spec k0 k) as [->|Hne]; intros Hk.
    + apply (has_assign _ source). rewrite get_set_eq. eauto.
    + by apply IH.
Qed.

End LodashFacts.

(** ** The heap *)




(** Whatever is merged into a clone, the objects that were there stay as
    they were. *)
Lemma clone_then_merge_frame (h : Heap) (value source r : ref) :
  r < List.length h →
  mergeInto (cloneDeep h value).2 (cloneDeep h value).1 source !! r = h !! r.
Proof.
  intros Hr. unfold mergeInto, cloneDeep. simpl.
  rewrite list_lookup_insert_ne by lia. by rewrite lookup_app_l.
Qed.

(** ** Messages *)

Lemma prefix_append (x rest : string) : String.prefix x (x +:+ rest) = true.
Proof.
  induction x as [|c x IH]; simpl; [by destruct rest|].
  destruct (Ascii.ascii_dec c c); [apply IH|done].
Qed.

Lemma mentions_here (x rest : string) : mentions x (x +:+ rest) = true.
Proof.
  assert (Hm : ∀ m, String.prefix x m = true → mentions x m = true).
  { intros m Hp. destruct m; cbn -[String.prefix]; rewrite Hp; done. }
  apply Hm, prefix_append.
Qed.

Lemma mentions_later (x before message : string) :
  mentions x message = true → mentions x (before +:+ message) = true.
Proof.
  intros Hm. induction before as [|c before IH]; [done|].
  change (String c before +:+ message) with (String c (before +:+ message)).
  cbn -[String.prefix String.append]. rewrite IH. apply orb_true_r.
Qed.

(** ** getOrInsertId and updateOrInsert *)

Section Upsert.
Context {Store : Type} `{Pinejs Store}.

Ltac run_upsert :=
  unfold _updateOrInsert, _getOrInsertId, andThen, load, api_get, api_post,
    api_patch, call, cloneDeep_, merge_, resolve, throw, record, with_store,
    with_heap; simpl.

(** The shapes a run of [_updateOrInsert] can leave the heap and the log
    in: nothing but the query, or the query and one write, the heap being
    touched only when a clone was made for an insert. *)
Lemma updateOrInsert_effects api resource (filter updateFields : ref) tx
    (w : World Store) :
  let w' := (_updateOrInsert api resource filter updateFields tx w).2 in
  (heap w' = heap w ∨
   heap w' = mergeInto (cloneDeep (heap w) filter).2
                       (cloneDeep (heap w) filter).1 updateFields) ∧
  ∃ evs, log w' = log w ++ evs ∧ List.length (List.filter is_write evs) ≤ 1.
Proof.
  run_upsert.
  destruct (pine_get _ _ _ _) as [[[|first [|second rest]]|e] s1] eqn:Hget; simpl.
  - destruct (pine_post _ _ _ _ _) as [out s2]; simpl. split; [by right|].
    eexists. split; [by rewrite <- app_assoc|]. simpl. lia.
  - destruct (pine_patch _ _ _ _ _) as [[[]|e] s2]; simpl;
      (split; [by left|]); (eexists; split; [by rewrite <- app_assoc|]);
      simpl; lia.
  - split; [by left|]. eexists. split; [done|]. simpl. lia.
  - split; [by left|]. eexists. split; [done|]. simpl. lia.
Qed.


(** C3. When the query finds more than one row, [updateOrInsert] fails with
    the error that names the resource and shows the filter, having done
    nothing but the query; and whatever the query finds, a call issues at
    most one write. *)
Theorem updateOrInsert_not_unique api resource (filter updateFields : ref) tx
    (w : World Store) :
  let apiTx := clone api (mkPassthrough root tx) in
  let query := mkGet (Fields ["id"]) (Match (deref (heap w) filter)) in
  let found := pine_get apiTx resource query (store w) in
  let run := _updateOrInsert api resource filter updateFields tx w in
  (∀ first second rest, found.1 = Resolved (first :: second :: rest) →
   run =
     (Rejected (not_unique resource (deref (heap w) filter)),
      mkWorld (heap w) found.2 (custom w) (promises w) (transactions w)
              (log w ++ [EvGet apiTx resource query])) ∧
   ∃ message,
     not_unique resource (deref (heap w) filter) = Error message ∧
     mentions resource message = true ∧
     mentions (JSON_stringify (deref (heap w) filter)) message = true) ∧
  List.length (List.filter is_write (added w run.2)) ≤ 1.
Proof.
  intros apiTx query found run. split.
  - intros first second rest Hmany. split.
    + subst run found apiTx query. run_upsert.
      by destruct (pine_get _ _ _ _) as [out s1]; simpl in *; subst out.
    + eexists. split; [reflexivity|]. split.
      * apply (mentions_later resource "updateOrInsert filter not unique for '").
        apply mentions_here.
      * apply (mentions_later _ "updateOrInsert filter not unique for '").
        apply (mentions_later _ resource), (mentions_later _ "': '").
        apply mentions_here.
  - destruct (updateOrInsert_effects api resource filter updateFields tx w)
      as [_ (evs & Hlog & Hone)].
    subst run. unfold added. rewrite Hlog.
    by rewrite drop_app_length.
Qed.

(** C9. A call of [updateOrInsert] leaves the caller's filter object as it
    was: the fields merged for an insert go into a clone. *)
Theorem updateOrInsert_keeps_filter api resource (filter updateFields : ref) tx
    (w : World Store) :
  filter < List.length (heap w) →
  let w' := (_updateOrInsert api resource filter updateFields tx w).2 in
  heap w' !! filter = heap w !! filter ∧
  deref (heap w') filter = deref (heap w) filter.
Proof.
  intros Hvalid w'.
  assert (Hsame : heap w' !! filter = heap w !! filter).
  { destruct (updateOrInsert_effects api resource filter updateFields tx w)
      as [[Hheap|Hheap] _]; subst w'; rewrite Hheap; [done|].
    by apply clone_then_merge_frame. }
  split; [done|]. unfold deref. by rewrite Hsame.
Qed.

(** C4. [getOrInsertId] queries the resource by the fields of [body]. When
    no row matches it posts [body] and returns the answer of the post with
    the fields of [body] assigned over it; when rows match it returns the
    first one and posts nothing. When the store answers with records that
    carry an id, so does every object the call returns. *)
Theorem getOrInsertId_result api resource (body : ref) tx (w : World Store) :
  let apiTx := clone api (mkPassthrough root tx) in
  let fields := deref (heap w) body in
  let query := mkGet (Field "id") (Match fields) in
  let found := pine_get apiTx resource query (store w) in
  let run := _getOrInsertId api resource body tx w in
  (found.1 = Resolved [] →
   let inserted := pine_post apiTx resource fields false found.2 in
   run =
     (match inserted.1 with
      | Resolved idObj =>
          Resolved (Lodash.assign (Lodash.assign [] idObj) fields)
      | Rejected e => Rejected e
      end,
      mkWorld (heap w) inserted.2 (custom w) (promises w) (transactions w)
              (log w ++ [EvGet apiTx resource query;
                         EvPost apiTx resource fields false]))) ∧
  (∀ first rest, found.1 = Resolved (first :: rest) →
   run =
     (Resolved first,
      mkWorld (heap w) found.2 (custom w) (promises w) (transactions w)
              (log w ++ [EvGet apiTx resource query]))) ∧
  ((∀ rows, found.1 = Resolved rows →
            Forall (λ row, is_Some (Lodash.get row "id")) rows) →
   (∀ idObj, (pine_post apiTx resource fields false found.2).1 = Resolved idObj →
             is_Some (Lodash.get idObj "id")) →
   ∀ o, run.1 = Resolved o → is_Some (Lodash.get o "id")).
Proof.
  intros apiTx fields query found run.
  assert (Hrun : run =
    match found with
    | (Resolved [], s1) =>
        let inserted := pine_post apiTx resource fields false s1 in
        (match inserted.1 with
         | Resolved idObj =>
             Resolved (Lodash.assign (Lodash.assign [] idObj) fields)
         | Rejected e => Rejected e
         end,
         mkWorld (heap w) inserted.2 (custom w) (promises w) (transactions w)
                 (log w ++ [EvGet apiTx resource query;
                            EvPost apiTx resource fields false]))
    | (Resolved (first :: _), s1) =>
        (Resolved first,
         mkWorld (heap w) s1 (custom w) (promises w) (transactions w)
                 (log w ++ [EvGet apiTx resource query]))
    | (Rejected e, s1) =>
        (Rejected e,
         mkWorld (heap w) s1 (custom w) (promises w) (transactions w)
                 (log w ++ [EvGet apiTx resource query]))
    end).
  { subst run found apiTx query. run_upsert. fold fields.
    destruct (pine_get _ _ _ _) as [[[|first rest]|e] s1]; simpl; try done.
    destruct (pine_post _ _ _ _ _) as [[idObj|e] s2]; simpl;
      by rewrite <- app_assoc. }
  split; [|split].
  - intros Hnone inserted. rewrite Hrun. subst inserted.
    destruct found as [out s1]; simpl in *. by subst out.
  - intros first rest Hsome. rewrite Hrun.
    destruct found as [out s1]; simpl in *. by subst out.
  - intros Hrows Hpost o. rewrite Hrun.
    destruct found as [[[|first rest]|e] s1]; simpl in *.
    + destruct (pine_post _ _ _ _ _) as [[idObj|e] s2]; simpl in *; [|done].
      intros [= <-]. apply has_assign, has_assign_source. by apply Hpost.
    + intros [= <-]. specialize (Hrows _ eq_refl).
      by apply Forall_cons in Hrows as [Hfirst _].
    + done.
Qed.

End Upsert.

(** ** Transactions *)

Section Transactions.
Context {Store : Type} `{Pinejs Store}.

(** C5. A wrapped operation runs in a transaction opened for the call.
    When it resolves, the transaction is committed, its writes stay and its
    result is the result of the call; when it fails, the transaction is
    rolled back, the store is as it was before the call and the reason of
    the failure is the one the operation gave. *)
Theorem wrapInTransaction_commit_or_rollback {This Args R}
    (fn : TxFn (Store := Store) This Args R) (this : This) (args : Args)
    (w : World Store) :
  let t := transactions w in
  let opened :=
    mkWorld (heap w) (store w) (custom w) (promises w) (S t)
            (log w ++ [EvBegin t]) in
  let inside := fn this t args opened in
  let run := wrapInTransaction fn this args w in
  (∀ a, inside.1 = Resolved a →
        run.1 = Resolved a ∧
        store run.2 = store inside.2 ∧
        log run.2 = log inside.2 ++ [EvCommit t]) ∧
  (∀ e, inside.1 = Rejected e →
        run.1 = Rejected e ∧
        store run.2 = store w ∧
        log run.2 = log inside.2 ++ [EvRollback t]).
Proof.
  intros t opened inside run. subst run.
  unfold wrapInTransaction, db_transaction. fold t. fold opened. fold inside.
  destruct inside as [[a|e] w']; simpl; split; intros x [= <-]; done.
Qed.

(** C8. [runInTransaction fn args] is the function made by
    [wrapInTransaction fn], called once on [args]: one transaction around
    one call of [fn], with the same outcome and the same world. *)
Theorem runInTransaction_wrap_then_call {This Args R}
    (fn : TxFn (Store := Store) (option This) Args R) (args : Args)
    (w : World Store) :
  runInTransaction fn args w = wrapInTransaction fn None args w ∧
  runInTransaction fn args w = db_transaction (λ tx, fn None tx args) w.
Proof. split; reflexivity. Qed.

End Transactions.

(** ** The affected ids of a request *)

Section AffectedIds.
Context {Store : Type} `{Pinejs Store}.

(** Once the promise is on the request, calls hand it back and change
    nothing. *)
Lemma calls_cached (r : nat) (p : Promise) (later : list HookArgs)
    (w : World Store) :
  custom w !! r = Some p →
  Forall (λ a, request a = r) later →
  calls later w = (replicate (List.length later) p, w).
Proof.
  intros Hp Hall. induction Hall as [|a later Ha _ IH]; [done|].
  simpl. unfold getCurrentRequestAffectedIds. rewrite Ha, Hp. by rewrite IH.
Qed.

(** A call either finds the promise, or resolves the ids once and leaves
    the promise on the request. *)
Lemma getCurrentRequestAffectedIds_cases (args : HookArgs) (w : World Store) :
  let run := getCurrentRequestAffectedIds args w in
  (custom w !! request args = Some run.1 ∧ run.2 = w) ∨
  (custom w !! request args = None ∧
   run.1 = mkPromise (promises w) (pine_getAffectedIds args (store w)).1 ∧
   run.2 = mkWorld (heap w) (pine_getAffectedIds args (store w)).2
                   (<[request args := run.1]> (custom w)) (S (promises w))
                   (transactions w) (log w ++ [EvAffectedIds args])).
Proof.
  unfold getCurrentRequestAffectedIds.
  destruct (custom w !! request args) as [p|] eqn:Hc; simpl; [by left|].
  right. by destruct (pine_getAffectedIds args (store w)) as [ids s].
Qed.

Lemma getCurrentRequestAffectedIds_stored (args : HookArgs) (w : World Store) :
  let run := getCurrentRequestAffectedIds args w in
  custom run.2 !! request args = Some run.1.
Proof.
  intros run.
  destruct (getCurrentRequestAffectedIds_cases args w) as [[Hc Hw]|(_ & _ & Hw)];
    fold run in Hw |- *; rewrite Hw; [done|].
  simpl. by rewrite lookup_insert_eq.
Qed.

(** C6. In one request the ids are resolved at most once. A first call
    that finds nothing on the request invokes the resolution, once and with
    its own arguments, and leaves on the request the promise of what the
    resolution answers; a first call that finds a promise returns it and
    resolves nothing. Either way every later call of the request returns
    that same promise and does nothing else. *)
Theorem affectedIds_resolved_once (first : HookArgs) (later : list HookArgs)
    (w : World Store) :
  Forall (λ a, request a = request first) later →
  let run := getCurrentRequestAffectedIds first w in
  let rest := calls later run.2 in
  let resolution := pine_getAffectedIds first (store w) in
  custom run.2 !! request first = Some run.1 ∧
  rest.1 = replicate (List.length later) run.1 ∧
  rest.2 = run.2 ∧
  List.length (List.filter is_resolution (added w rest.2)) ≤ 1 ∧
  (custom w !! request first = None →
   settled run.1 = resolution.1 ∧
   store rest.2 = resolution.2 ∧
   added w rest.2 = [EvAffectedIds first]) ∧
  (∀ p, custom w !! request first = Some p →
        run.1 = p ∧ rest.2 = w ∧ added w rest.2 = []).
Proof.
  intros Hsame run rest resolution.
  pose proof (getCurrentRequestAffectedIds_stored first w) as Hstored.
  fold run in Hstored.
  assert (Hrest : rest = (replicate (List.length later) run.1, run.2)).
  { by apply (calls_cached (request first)). }
  rewrite Hrest. simpl. do 3 (split; [done|]).
  unfold added.
  destruct (getCurrentRequestAffectedIds_cases first w)
    as [[Hc Hw]|(Hc & Hp & Hw)].
  - fold run in Hc, Hw. rewrite Hw, drop_all. split; [simpl; lia|]. split; [by rewrite Hc|].
    intros p Hp. rewrite Hc in Hp. by injection Hp as ->.
  - fold run in Hp, Hw. fold resolution in Hp, Hw. rewrite Hw. simpl.
    rewrite drop_app_length.
    split; [simpl; lia|]. split; [by rewrite Hp|].
    intros p Hp'. by rewrite Hc in Hp'.
Qed.

(** C10. When the first resolution of a request fails, the failed promise
    stays on the request: every later call returns it, whoever waits on it
    gets the same failure, and the ids are not resolved again. *)
Theorem affectedIds_failure_cached (first : HookArgs) (later : list HookArgs)
    (e : exn) (w : World Store) :
  custom w !! request first = None →
  (pine_getAffectedIds first (store w)).1 = Rejected e →
  Forall (λ a, request a = request first) later →
  let run := getCurrentRequestAffectedIds first w in
  let rest := calls later run.2 in
  settled run.1 = Rejected e ∧
  rest.1 = replicate (List.length later) run.1 ∧
  Forall (λ p, await p rest.2 = (Rejected e, rest.2)) rest.1 ∧
  added w rest.2 = [EvAffectedIds first].
Proof.
  intros Hnew Hfail Hsame run rest.
  pose proof (getCurrentRequestAffectedIds_stored first w) as Hstored.
  fold run in Hstored.
  assert (Hrest : rest = (replicate (List.length later) run.1, run.2)).
  { by apply (calls_cached (request first)). }
  destruct (getCurrentRequestAffectedIds_cases first w)
    as [[Hc _]|(_ & Hp & Hw)]; [congruence|].
  fold run in Hp, Hw.
  assert (Hsettled : settled run.1 = Rejected e) by (by rewrite Hp).
  rewrite Hrest. simpl. repeat split; try done.
  - apply Forall_replicate. unfold await. by rewrite Hsettled.
  - unfold added. rewrite Hw. simpl. by rewrite drop_app_length.
Qed.

End AffectedIds.

(** ** The cascading delete *)

Section CascadingDelete.
Context {Store : Type} `{Pinejs Store}.

Lemma andThen_unit (p : Async Store unit) (w : World Store) :
  (p ;; resolve tt) w = p w.
Proof. unfold andThen, resolve. by destruct (p w) as [[[]|e] w']. Qed.

Lemma cascade_app api r (before after : list Step) (w : World Store) :
  cascade api r (before ++ after) w =
  (cascade api r before ;; cascade api r after) w.
Proof.
  revert w. induction before as [|st before IH]; intros w; simpl; [done|].
  unfold andThen in *.
  destruct (tapCatch _ _ w) as [[[]|e] w1]; [apply IH|done].
Qed.

Lemma deleteDependent_cascade resource args ids (entry : Dependent)
    (w : World Store) :
  deleteDependent resource args ids entry w =
  cascade (hook_api args) (hook_req args) (steps_of resource ids entry) w.
Proof.
  destruct entry as [[dependent resourceIdField] [sub|]]; simpl;
    unfold andThen; destruct (tapCatch _ _ w) as [[[]|e] w1]; try done.
  symmetry. apply andThen_unit.
Qed.

(** The nested chain of the hook is the flat chain over the plan. *)
Lemma mapSeries_cascade resource args ids (dependents : list Dependent)
    (w : World Store) :
  (mapSeries (deleteDependent resource args ids) dependents ;; resolve tt) w =
  cascade (hook_api args) (hook_req args) (plan resource ids dependents) w.
Proof.
  revert w. induction dependents as [|entry dependents IH]; intros w; [done|].
  unfold plan. simpl. fold (plan resource ids dependents).
  rewrite cascade_app. unfold andThen in *.
  rewrite deleteDependent_cascade.
  destruct (cascade _ _ (steps_of _ _ _) w) as [[[]|e] w1]; [|done].
  rewrite <- IH. unfold resolve.
  by destruct (mapSeries _ _ w1) as [[ys|e] w2].
Qed.

(** The flat chain runs the steps as [Cascade] says, touching only the
    store and the log. *)
Lemma cascade_runs api r (steps : list Step) (w : World Store) :
  ∃ out s' evs,
    cascade api r steps w =
      (out, mkWorld (heap w) s' (custom w) (promises w) (transactions w)
                    (log w ++ evs)) ∧
    Cascade api r steps (store w) out s' evs.
Proof.
  revert w. induction steps as [|st steps IH]; intros w.
  - exists (Resolved tt), (store w), []. split; [|constructor].
    simpl. unfold resolve. rewrite app_nil_r. by destruct w.
  - simpl. unfold andThen, tapCatch, api_delete, call, captureException.
    simpl.
    destruct (pine_delete api (step_resource st) (step_filter st) (store w))
      as [[[]|e] s1] eqn:Hdel; simpl.
    + destruct (IH (with_store s1 (record (issue api st) w)))
        as (out & s' & evs & Hrun & Hsteps).
      exists out, s', (issue api st :: evs). split.
      * unfold issue in Hrun. rewrite Hrun. simpl. by rewrite <- app_assoc.
      * by eapply Cascade_next.
    + exists (Rejected e), s1, [issue api st; EvCapture e (step_message st) r].
      split; [|by apply Cascade_abort].
      unfold record, with_store. simpl. by rewrite <- app_assoc.
Qed.

(** What [Cascade] allows: the deletes issued are the first [n] of the
    plan, in order; all of them when the outcome is success; and on failure
    the last one issued is followed by its report and nothing else. *)
Lemma Cascade_prefix api r (steps : list Step) s out s' evs :
  Cascade api r steps s out s' evs →
  ∃ n, n ≤ List.length steps ∧
    List.filter is_delete evs = map (issue api) (take n steps) ∧
    (out = Resolved tt → evs = map (issue api) steps) ∧
    (∀ e, out = Rejected e →
       ∃ st, 0 < n ∧ steps !! pred n = Some st ∧
             evs = map (issue api) (take n steps) ++
                   [EvCapture e (step_message st) r]).
Proof.
  induction 1 as [s|st rest s s1 out s2 evs Hdel _ (n & Hn & Hissued & Hok & Hko)
                 |st rest s e s1 Hdel].
  - exists 0. repeat split; done || (simpl; lia).
  - exists (S n). simpl. repeat split.
    + lia.
    + by rewrite Hissued.
    + intros Hout. by rewrite Hok.
    + intros e Hout. destruct (Hko e Hout) as (last & Hpos & Hlast & Hevs).
      exists last. split; [lia|]. split; [|by rewrite Hevs].
      destruct n; [lia|done].
  - exists 1. simpl. rewrite ?take_0. split; [lia|]. split; [done|].
    split; [done|]. intros e' [= <-]. exists st. repeat split; done || lia.
Qed.

(** The hook, once the promise of the affected ids is at hand. *)
Lemma addDeleteHookForDependents_unfold resource (dependents : list Dependent)
    args (w : World Store) :
  let lookup := getCurrentRequestAffectedIds args w in
  addDeleteHookForDependents resource dependents args w =
  match settled lookup.1 with
  | Resolved [] => (Resolved tt, lookup.2)
  | Resolved ids =>
      cascade (hook_api args) (hook_req args) (plan resource ids dependents)
              lookup.2
  | Rejected e => (Rejected e, lookup.2)
  end.
Proof.
  intros lookup. unfold addDeleteHookForDependents. fold lookup.
  destruct lookup as [p w1]. simpl. unfold andThen at 1, await.
  destruct (settled p) as [[|id ids]|e]; try done.
  apply mapSeries_cascade.
Qed.

Lemma steps_in_plan resource ids (dependents : list Dependent) entry st :
  entry ∈ dependents → st ∈ steps_of resource ids entry →
  st ∈ plan resource ids dependents.
Proof.
  intros Hentry Hst. unfold plan. apply list_elem_of_In, in_flat_map.
  exists entry. by rewrite <- !list_elem_of_In.
Qed.

(** C7. With no affected id the hook succeeds at once and issues no
    delete. *)
Theorem empty_affected_set_no_delete resource (dependents : list Dependent)
    args (w : World Store) :
  let lookup := getCurrentRequestAffectedIds args w in
  let run := addDeleteHookForDependents resource dependents args w in
  settled lookup.1 = Resolved [] →
  run = (Resolved tt, lookup.2) ∧
  List.filter is_delete (added w run.2) = [].
Proof.
  intros lookup run Hempty.
  assert (Hrun : run = (Resolved tt, lookup.2)).
  { subst run. rewrite addDeleteHookForDependents_unfold. fold lookup.
    by rewrite Hempty. }
  split; [done|]. rewrite Hrun. simpl. unfold added.
  destruct (getCurrentRequestAffectedIds_cases args w) as [[_ Hw]|(_ & _ & Hw)];
    fold lookup in Hw; rewrite Hw; simpl.
  - by rewrite drop_all.
  - by rewrite drop_app_length.
Qed.

(** C1, as the code has it. With a non-empty set of affected ids the hook
    runs the deletes of the plan (each dependent in declared order, its
    sub-dependent right after it) one after the other: the deletes issued
    are the first [n] of the plan, and each one ran only after the one
    before it had succeeded. When all succeed the hook succeeds. The first
    delete that fails is reported to the sink with the request, and its
    reason is the outcome of the hook; no delete follows. The report of a
    dependent names the dependent and the resource being deleted; the
    report of a sub-dependent names the sub-dependent only. *)
Theorem cascade_in_declared_order resource (dependents : list Dependent)
    args (ids : list Z) (w : World Store) :
  let lookup := getCurrentRequestAffectedIds args w in
  let w1 := lookup.2 in
  let steps := plan resource ids dependents in
  let api := hook_api args in
  settled lookup.1 = Resolved ids → ids ≠ [] →
  (∃ out s' evs n,
     addDeleteHookForDependents resource dependents args w =
       (out, mkWorld (heap w1) s' (custom w1) (promises w1) (transactions w1)
                     (log w1 ++ evs)) ∧
     Cascade api (hook_req args) steps (store w1) out s' evs ∧
     n ≤ List.length steps ∧
     List.filter is_delete evs = map (issue api) (take n steps) ∧
     (out = Resolved tt → evs = map (issue api) steps) ∧
     (∀ e, out = Rejected e →
        ∃ st, 0 < n ∧ steps !! pred n = Some st ∧
              evs = map (issue api) (take n steps) ++
                    [EvCapture e (step_message st) (hook_req args)])) ∧
  (∀ dependent resourceIdField sub,
     (dependent, resourceIdField, sub) ∈ dependents →
     let st := dependent_step resource ids dependent resourceIdField in
     st ∈ steps ∧
     mentions dependent (step_message st) = true ∧
     mentions resource (step_message st) = true ∧
     ∀ names, sub = Some names →
       sub_step ids names ∈ steps ∧
       step_message (sub_step ids names) =
         "Error deleting " +:+ js_string (names !! 0)).
Proof.
  intros lookup w1 steps api Hids Hsome. split.
  - destruct (cascade_runs api (hook_req args) steps w1)
      as (out & s' & evs & Hrun & Hsteps).
    destruct (Cascade_prefix _ _ _ _ _ _ _ Hsteps) as (n & Hn & Hissued & Hok & Hko).
    exists out, s', evs, n. repeat split; try done.
    rewrite addDeleteHookForDependents_unfold. fold lookup. rewrite Hids.
    destruct ids as [|id ids]; [done|]. exact Hrun.
  - intros dependent resourceIdField sub Hentry st. split; [|split; [|split]].
    + eapply steps_in_plan; [done|]. simpl. apply list_elem_of_here.
    + apply (mentions_later dependent "Error deleting resource '").
      apply mentions_here.
    + apply (mentions_later resource "Error deleting resource '").
      apply (mentions_later resource dependent).
      apply (mentions_later resource "' before deleting '").
      apply mentions_here.
    + intros names ->. split; [|done].
      eapply steps_in_plan; [done|]. simpl.
      apply list_elem_of_further, list_elem_of_here.
Qed.

End CascadingDelete.

(** ** The sample requests *)

Section OnSamples.
Import Memory Samples.

Example merge_nested :
  Lodash.merge [("a", JObj [("x", JNum 1)]); ("b", JNum 2)]
               [("a", JObj [("y", JNum 3)]); ("b", JNull);
                ("c", JObj [("z", JStr "s")])] =
  [("a", JObj [("x", JNum 1); ("y", JNum 3)]); ("b", JNull);
   ("c", JObj [("z", JStr "s")])].
Proof. reflexivity. Qed.

Example upsert_inserts_merged_row :
  let run := updateOrInsert "user" 0 1 None no_ada in
  run.1 = Resolved [("id", JNum 1)] ∧
  rows (store run.2) =
    [("user", [("name", JStr "ada"); ("email", JStr "ada@example.org");
               ("id", JNum 1)])].
Proof. by vm_compute. Qed.

Example cascade_deletes_in_order :
  let run :=
    addDeleteHookForDependents "device" device_dependents delete_args deleting in
  run.1 = Resolved tt ∧
  List.filter is_delete (log run.2) =
    map (issue (hook_api delete_args))
        (plan "device" [5%Z] device_dependents) ∧
  rows (store run.2) =
    [("device", [("id", JNum 5)]); ("device_config_variable", owned 4 6)].
Proof. by vm_compute. Qed.


Lemma updateOrInsert_not_unique_witness :
  (_updateOrInsert authApi "user" 0 1 None two_adas).1 =
    Rejected (Error "updateOrInsert filter not unique for 'user': '{name}'") ∧
  rows (store (_updateOrInsert authApi "user" 0 1 None two_adas).2) =
    [ada 7; ada 8].
Proof.
  destruct (updateOrInsert_not_unique authApi "user" 0 1 None two_adas)
    as [Hmany _].
  destruct (Hmany _ _ _ eq_refl) as [Hrun _]. rewrite Hrun. by split.
Defined.

Lemma updateOrInsert_keeps_filter_witness :
  0 < List.length (heap no_ada) ∧
  deref (heap (_updateOrInsert authApi "user" 0 1 None no_ada).2) 0 = by_name.
Proof.
  assert (Hvalid : 0 < List.length caller_heap) by (simpl; lia).
  split; [done|].
  destruct (updateOrInsert_keeps_filter authApi "user" 0 1 None no_ada Hvalid)
    as [_ Hsame].
  rewrite Hsame. reflexivity.
Defined.

Lemma getOrInsertId_result_witness :
  (_getOrInsertId authApi "user" 0 None no_ada).1 =
    Resolved [("id", JNum 1); ("name", JStr "ada")] ∧
  (_getOrInsertId authApi "user" 0 None one_ada).1 =
    Resolved [("id", JNum 7)] ∧
  ∀ o, (_getOrInsertId authApi "user" 0 None two_adas).1 = Resolved o →
       is_Some (Lodash.get o "id").
Proof.
  split; [|split].
  - destruct (getOrInsertId_result authApi "user" 0 None no_ada) as [Hzero _].
    rewrite (Hzero eq_refl). reflexivity.
  - destruct (getOrInsertId_result authApi "user" 0 None one_ada)
      as (_ & Hsome & _).
    rewrite (Hsome _ _ eq_refl). reflexivity.
  - destruct (getOrInsertId_result authApi "user" 0 None two_adas)
      as (_ & _ & Hid).
    apply Hid.
    + intros rows [= <-]. repeat constructor; by eexists.
    + intros idObj [= <-]. by eexists.
Defined.

Lemma wrapInTransaction_commit_or_rollback_witness :
  (let run := wrapInTransaction (two_writes true) tt tt no_ada in
   run.1 = Rejected (Error "boom") ∧ store run.2 = store no_ada) ∧
  (let run := wrapInTransaction (two_writes false) tt tt no_ada in
   run.1 = Resolved tt ∧ List.length (rows (store run.2)) = 2).
Proof.
  split.
  - destruct (wrapInTransaction_commit_or_rollback
                (two_writes true) tt tt no_ada) as [_ Hfail].
    destruct (Hfail (Error "boom") eq_refl) as (Hout & Hstore & _).
    by split.
  - destruct (wrapInTransaction_commit_or_rollback
                (two_writes false) tt tt no_ada) as [Hok _].
    destruct (Hok tt eq_refl) as (Hout & Hstore & _).
    split; [done|]. cbv zeta. rewrite Hstore. reflexivity.
Defined.

Lemma affectedIds_resolved_once_witness :
  Forall (λ a, request a = request delete_args) [other_args; delete_args] ∧
  let run := getCurrentRequestAffectedIds delete_args deleting in
  settled run.1 = Resolved [5%Z] ∧
  (calls [other_args; delete_args] run.2).1 = [run.1; run.1] ∧
  added deleting (calls [other_args; delete_args] run.2).2 =
    [EvAffectedIds delete_args].
Proof.
  assert (Hsame : Forall (λ a, request a = request delete_args)
                         [other_args; delete_args]) by (by repeat constructor).
  assert (Hnew : custom deleting !! request delete_args = None)
    by (vm_compute; reflexivity).
  split; [done|].
  destruct (affectedIds_resolved_once delete_args [other_args; delete_args]
              deleting Hsame) as (_ & Hrest & _ & _ & Hfresh & _).
  destruct (Hfresh Hnew) as (Hsettled & _ & Hlog).
  split; [by rewrite Hsettled|]. by split.
Defined.

Lemma affectedIds_failure_cached_witness :
  let run := getCurrentRequestAffectedIds delete_args resolving_badly in
  settled run.1 = Rejected timeout ∧
  (calls [other_args; delete_args] run.2).1 = [run.1; run.1] ∧
  added resolving_badly (calls [other_args; delete_args] run.2).2 =
    [EvAffectedIds delete_args].
Proof.
  assert (Hsame : Forall (λ a, request a = request delete_args)
                         [other_args; delete_args]) by (by repeat constructor).
  assert (Hnew : custom resolving_badly !! request delete_args = None)
    by (vm_compute; reflexivity).
  assert (Hfails : (pine_getAffectedIds delete_args (store resolving_badly)).1
                   = Rejected timeout) by reflexivity.
  destruct (affectedIds_failure_cached delete_args [other_args; delete_args]
              timeout resolving_badly Hnew Hfails Hsame)
    as (Hfail & Hrest & _ & Hlog).
  by repeat split.
Defined.

Lemma empty_affected_set_no_delete_witness :
  let run :=
    addDeleteHookForDependents "device" device_dependents delete_args
                               deleting_nothing in
  run.1 = Resolved tt ∧ rows (store run.2) = fleet ∧
  List.filter is_delete (added deleting_nothing run.2) = [].
Proof.
  assert (Hempty :
    settled (getCurrentRequestAffectedIds delete_args deleting_nothing).1 =
    Resolved []) by (vm_compute; reflexivity).
  destruct (empty_affected_set_no_delete "device" device_dependents delete_args
              deleting_nothing Hempty) as [Hrun Hnone].
  split; [by rewrite Hrun|]. split; [by rewrite Hrun|done].
Defined.

Lemma cascade_in_declared_order_witness :
  let lookup := getCurrentRequestAffectedIds delete_args deleting_broken in
  let run :=
    addDeleteHookForDependents "device" device_dependents delete_args
                               deleting_broken in
  settled lookup.1 = Resolved [5%Z] ∧
  ∃ n evs,
    log run.2 = log lookup.2 ++ evs ∧
    List.filter is_delete evs =
      map (issue (hook_api delete_args))
          (take n (plan "device" [5%Z] device_dependents)).
Proof.
  assert (Hids :
    settled (getCurrentRequestAffectedIds delete_args deleting_broken).1 =
    Resolved [5%Z]) by (vm_compute; reflexivity).
  split; [exact Hids|].
  assert (Hsome : [5%Z] ≠ []) by discriminate.
  destruct (cascade_in_declared_order "device" device_dependents delete_args
              [5%Z] deleting_broken Hids Hsome)
    as [(out & s' & evs & n & Hrun & _ & _ & Hissued & _) _].
  exists n, evs. rewrite Hrun. by split.
Defined.

(** C1, as it is stated, fails on the report of a sub-dependent: when the
    delete of [image_install] fails, the report reads
    "Error deleting image_install" and names neither [device] nor the
    dependent [image_install] is declared under. *)
Lemma sub_dependent_report_omits_parent :
  ¬ report_names_parent "device" device_dependents delete_args deleting_broken.
Proof.
  intros Hclaim.
  specialize (Hclaim (Failure (JStr "image_install"))
                     "Error deleting image_install" eq_refl eq_refl).
  vm_compute in Hclaim. discriminate.
Qed.

End OnSamples.

(** * More of the module

    What the code shows beyond the properties above. *)

(** ** The upsert primitives, again *)

Section UpsertMore.
Context {Store : Type} `{Pinejs Store}.

Ltac run_upsert :=
  unfold _updateOrInsert, _getOrInsertId, andThen, load, api_get, api_post,
    api_patch, call, cloneDeep_, merge_, resolve, throw, record, with_store,
    with_heap; simpl.

(** A run of [_getOrInsertId], by what the query answers. *)
Lemma getOrInsertId_run api resource (body : ref) tx (w : World Store) :
  let apiTx := clone api (mkPassthrough root tx) in
  let fields := deref (heap w) body in
  let query := mkGet (Field "id") (Match fields) in
  _getOrInsertId api resource body tx w =
  match pine_get apiTx resource query (store w) with
  | (Resolved [], s1) =>
      let inserted := pine_post apiTx resource fields false s1 in
      (match inserted.1 with
       | Resolved idObj =>
           Resolved (Lodash.assign (Lodash.assign [] idObj) fields)
       | Rejected e => Rejected e
       end,
       mkWorld (heap w) inserted.2 (custom w) (promises w) (transactions w)
               (log w ++ [EvGet apiTx resource query;
                          EvPost apiTx resource fields false]))
  | (Resolved (first :: _), s1) =>
      (Resolved first,
       mkWorld (heap w) s1 (custom w) (promises w) (transactions w)
               (log w ++ [EvGet apiTx resource query]))
  | (Rejected e, s1) =>
      (Rejected e,
       mkWorld (heap w) s1 (custom w) (promises w) (transactions w)
               (log w ++ [EvGet apiTx resource query]))
  end.
Proof.
  intros apiTx fields query. subst apiTx query. run_upsert. fold fields.
  destruct (pine_get _ _ _ _) as [[[|first rest]|e] s1]; simpl; try done.
  destruct (pine_post _ _ _ _ _) as [[idObj|e] s2]; simpl;
    by rewrite <- app_assoc.
Qed.

(** X1. [_getOrInsertId] never touches the heap, the request properties or
    the transaction counter; after its query it issues nothing, or one post
    of [body], and it posts exactly when the query resolved with no row. *)
Theorem getOrInsertId_posts_only_when_absent api resource (body : ref) tx
    (w : World Store) :
  let apiTx := clone api (mkPassthrough root tx) in
  let fields := deref (heap w) body in
  let query := mkGet (Field "id") (Match fields) in
  let found := pine_get apiTx resource query (store w) in
  let run := _getOrInsertId api resource body tx w in
  heap run.2 = heap w ∧ custom run.2 = custom w ∧
  promises run.2 = promises w ∧ transactions run.2 = transactions w ∧
  ∃ evs, log run.2 = log w ++ EvGet apiTx resource query :: evs ∧
         ((evs = [] ∧ found.1 ≠ Resolved []) ∨
          (evs = [EvPost apiTx resource fields false] ∧ found.1 = Resolved [])).
Proof.
  intros apiTx fields query found run. subst run.
  rewrite getOrInsertId_run. fold apiTx fields query found.
  destruct found as [[[|first rest]|e] s1]; simpl; repeat split;
    eexists; (split; [reflexivity|]); (by left) || (by right).
Qed.

(** X2. When [_getOrInsertId] inserts, the object it returns holds every
    field of [body] with the value [body] gives it, also for [id]; the
    fields of the answer of the post show through only where [body] has
    none. *)
Theorem getOrInsertId_body_wins api resource (body : ref) tx (w : World Store)
    (idObj : list (string * json)) :
  let apiTx := clone api (mkPassthrough root tx) in
  let fields := deref (heap w) body in
  let query := mkGet (Field "id") (Match fields) in
  let found := pine_get apiTx resource query (store w) in
  NoDup fields.*1 → NoDup idObj.*1 →
  found.1 = Resolved [] →
  (pine_post apiTx resource fields false found.2).1 = Resolved idObj →
  ∃ o, (_getOrInsertId api resource body tx w).1 = Resolved o ∧
       ∀ k, Lodash.get o k =
            match Lodash.get fields k with
            | Some v => Some v
            | None => Lodash.get idObj k
            end.
Proof.
  intros apiTx fields query found Hfields HidObj Hnone Hpost.
  rewrite getOrInsertId_run. fold apiTx fields query found.
  destruct found as [out s1]. simpl in Hnone, Hpost. subst out. simpl.
  rewrite Hpost. eexists. split; [reflexivity|]. intros k.
  rewrite !get_assign by done. simpl.
  by destruct (Lodash.get fields k), (Lodash.get idObj k).
Qed.

(** X3. When the query of [_getOrInsertId] fails, the call fails with the
    same reason and nothing is posted. *)
Theorem getOrInsertId_query_failure api resource (body : ref) tx
    (w : World Store) (e : exn) :
  let apiTx := clone api (mkPassthrough root tx) in
  let query := mkGet (Field "id") (Match (deref (heap w) body)) in
  let found := pine_get apiTx resource query (store w) in
  found.1 = Rejected e →
  _getOrInsertId api resource body tx w =
    (Rejected e,
     mkWorld (heap w) found.2 (custom w) (promises w) (transactions w)
             (log w ++ [EvGet apiTx resource query])).
Proof.
  intros apiTx query found Hfail. rewrite getOrInsertId_run.
  fold apiTx query found. destruct found as [out s1]. simpl in Hfail.
  by subst out.
Qed.

(** A run of [_updateOrInsert], by what the query answers. *)
Lemma updateOrInsert_run api resource (filter updateFields : ref) tx
    (w : World Store) :
  let apiTx := clone api (mkPassthrough root tx) in
  let query := mkGet (Fields ["id"]) (Match (deref (heap w) filter)) in
  let fields := deref (heap w) updateFields in
  let known := mkWorld (heap w) (store w) (custom w) (promises w)
                       (transactions w) (log w ++ [EvGet apiTx resource query]) in
  _updateOrInsert api resource filter updateFields tx w =
  match pine_get apiTx resource query (store w) with
  | (Resolved [], s1) =>
      let h := mergeInto (cloneDeep (heap w) filter).2
                         (cloneDeep (heap w) filter).1 updateFields in
      let body := deref h (List.length (heap w)) in
      let inserted := pine_post apiTx resource body false s1 in
      (inserted.1,
       mkWorld h inserted.2 (custom w) (promises w) (transactions w)
               (log known ++ [EvPost apiTx resource body false]))
  | (Resolved [first], s1) =>
      let patched :=
        pine_patch apiTx resource (Lodash.get first "id") fields s1 in
      (match patched.1 with
       | Resolved _ => Resolved first
       | Rejected e => Rejected e
       end,
       mkWorld (heap w) patched.2 (custom w) (promises w) (transactions w)
               (log known ++ [EvPatch apiTx resource (Lodash.get first "id")
                                      fields]))
  | (Resolved (_ :: _ :: _), s1) =>
      (Rejected (not_unique resource (deref (heap w) filter)),
       with_store s1 known)
  | (Rejected e, s1) => (Rejected e, with_store s1 known)
  end.
Proof.
  intros apiTx query fields known. subst apiTx query known. run_upsert.
  fold fields.
  destruct (pine_get _ _ _ _) as [[[|first [|second rest]]|e] s1]; simpl;
    try done.
  - by destruct (pine_post _ _ _ _ _) as [out s2].
  - by destruct (pine_patch _ _ _ _ _) as [[[]|e] s2].
Qed.

(** X4. When the query of [_updateOrInsert] fails, the call fails with the
    same reason; nothing is written and no object is created. *)
Theorem updateOrInsert_query_failure api resource (filter updateFields : ref)
    tx (w : World Store) (e : exn) :
  let apiTx := clone api (mkPassthrough root tx) in
  let query := mkGet (Fields ["id"]) (Match (deref (heap w) filter)) in
  let found := pine_get apiTx resource query (store w) in
  found.1 = Rejected e →
  _updateOrInsert api resource filter updateFields tx w =
    (Rejected e,
     mkWorld (heap w) found.2 (custom w) (promises w) (transactions w)
             (log w ++ [EvGet apiTx resource query])).
Proof.
  intros apiTx query found Hfail. rewrite updateOrInsert_run.
  fold apiTx query found. destruct found as [out s1]. simpl in Hfail.
  by subst out.
Qed.

(** X5. [_updateOrInsert] changes no object that existed before the call,
    [updateFields] included; it creates one object, the body of the insert,
    exactly when the query resolved with no row, and it leaves the request
    properties and the transaction counter alone. *)
Theorem updateOrInsert_frame api resource (filter updateFields : ref) tx
    (w : World Store) :
  let apiTx := clone api (mkPassthrough root tx) in
  let query := mkGet (Fields ["id"]) (Match (deref (heap w) filter)) in
  let found := pine_get apiTx resource query (store w) in
  let w' := (_updateOrInsert api resource filter updateFields tx w).2 in
  (∀ r, r < List.length (heap w) → heap w' !! r = heap w !! r) ∧
  (found.1 = Resolved [] → List.length (heap w') = S (List.length (heap w))) ∧
  (found.1 ≠ Resolved [] → heap w' = heap w) ∧
  custom w' = custom w ∧ promises w' = promises w ∧
  transactions w' = transactions w.
Proof.
  intros apiTx query found w'. subst w'. rewrite updateOrInsert_run.
  fold apiTx query found.
  destruct found as [[[|first [|second rest]]|e] s1]; simpl;
    repeat split; try done.
  - intros r Hr. by apply clone_then_merge_frame.
  - intros _. unfold mergeInto, cloneDeep. simpl.
    rewrite length_insert, length_app. simpl. lia.
Qed.

(** X6. [_updateOrInsert] posts only when the query resolved with no row and
    patches only when it resolved with exactly one: with rows at hand it
    never inserts, and it never patches a row it did not find. *)
Theorem updateOrInsert_writes_by_case api resource (filter updateFields : ref)
    tx (w : World Store) :
  let apiTx := clone api (mkPassthrough root tx) in
  let query := mkGet (Fields ["id"]) (Match (deref (heap w) filter)) in
  let found := pine_get apiTx resource query (store w) in
  let evs := added w (_updateOrInsert api resource filter updateFields tx w).2 in
  (List.filter is_post evs ≠ [] ↔ found.1 = Resolved []) ∧
  (List.filter is_patch evs ≠ [] ↔ ∃ row, found.1 = Resolved [row]) ∧
  (∀ ev, ev ∈ evs → is_patch ev = true →
         ∃ row body, found.1 = Resolved [row] ∧
                     ev = EvPatch apiTx resource (Lodash.get row "id") body).
Proof.
  intros apiTx query found evs. subst evs. unfold added.
  rewrite updateOrInsert_run. fold apiTx query found.
  destruct found as [[[|first [|second rest]]|e] s1]; simpl;
    rewrite <- ?app_assoc, drop_app_length; simpl.
  - split; [done|]. split.
    + split; [done|]. by intros [row ?].
    + intros ev Hev Hpatch. apply list_elem_of_In in Hev.
      destruct Hev as [<-|[<-|[]]]; done.
  - split; [split; [by intros []|done]|]. split.
    + split; [by eexists|done].
    + intros ev Hev Hpatch. apply list_elem_of_In in Hev.
      destruct Hev as [<-|[<-|[]]]; [done|]. by eexists _, _.
  - split; [split; [by intros []|done]|]. split.
    + split; [by intros []|]. by intros [row ?].
    + intros ev Hev Hpatch. apply list_elem_of_In in Hev.
      destruct Hev as [<-|[]]; done.
  - split; [split; [by intros []|done]|]. split.
    + split; [by intros []|]. by intros [row ?].
    + intros ev Hev Hpatch. apply list_elem_of_In in Hev.
      destruct Hev as [<-|[]]; done.
Qed.

(** Every call of a verb that the two primitives issue goes through the
    clone of [api] bound to [root] and [tx]. *)
Lemma upsert_through_clone api resource (a b : ref) tx (w : World Store) :
  let apiTx := clone api (mkPassthrough root tx) in
  Forall (λ ev, event_api ev = Some apiTx)
         (added w (_getOrInsertId api resource a tx w).2) ∧
  Forall (λ ev, event_api ev = Some apiTx)
         (added w (_updateOrInsert api resource a b tx w).2).
Proof.
  intros apiTx. unfold added. split.
  - rewrite getOrInsertId_run. fold apiTx.
    destruct (pine_get _ _ _ _) as [[[|first rest]|e] s1]; simpl;
      rewrite drop_app_length; by repeat constructor.
  - rewrite updateOrInsert_run. fold apiTx.
    destruct (pine_get _ _ _ _) as [[[|first [|second rest]]|e] s1]; simpl;
      rewrite <- ?app_assoc, drop_app_length; by repeat constructor.
Qed.

(** X7. The exported bindings differ in the model only and never act for
    the caller: [getOrInsertId] and [updateOrInsert] talk to [Auth],
    [getOrInsertModelId] and [updateOrInsertModel] to [resin], always as
    [root] and inside the transaction they were given. *)
Theorem bindings_act_as_root resource (a b : ref) tx (w : World Store) :
  let bound m := Some (mkClient m (Some (mkPassthrough root tx))) in
  Forall (λ ev, event_api ev = bound Auth)
         (added w (getOrInsertId resource a tx w).2) ∧
  Forall (λ ev, event_api ev = bound resin)
         (added w (getOrInsertModelId resource a tx w).2) ∧
  Forall (λ ev, event_api ev = bound Auth)
         (added w (updateOrInsert resource a b tx w).2) ∧
  Forall (λ ev, event_api ev = bound resin)
         (added w (updateOrInsertModel resource a b tx w).2).
Proof.
  intros bound.
  destruct (upsert_through_clone authApi resource a b tx w) as [Hget Hupd].
  destruct (upsert_through_clone resinApi resource a b tx w) as [Hget' Hupd'].
  by repeat split.
Qed.

End UpsertMore.

(** ** The cascading delete, again *)

Section CascadeMore.
Context {Store : Type} `{Pinejs Store}.

Lemma plan_filters resource ids (dependents : list Dependent) st :
  st ∈ plan resource ids dependents →
  ∃ field, step_filter st = In_ field ids.
Proof.
  unfold plan. rewrite list_elem_of_In, in_flat_map.
  intros ([[dependent field] [sub|]] & _ & Hst); simpl in Hst.
  - destruct Hst as [<-|[<-|[]]]; by eexists.
  - destruct Hst as [<-|[]]; by eexists.
Qed.

(** What a cascade logs and where it leaves the store: deletes of its
    steps, then at most one report, which carries the reason it ends with;
    the store is the one the deletes issued have left. *)
Lemma Cascade_shape api r (steps : list Step) s out s' evs :
  Cascade api r steps s out s' evs →
  Forall (λ ev, (∃ st, st ∈ steps ∧ ev = issue api st) ∨
                (∃ e st, st ∈ steps ∧ out = Rejected e ∧
                         ev = EvCapture e (step_message st) r)) evs ∧
  List.length (List.filter is_report evs) ≤ 1 ∧
  List.filter is_resolution evs = [] ∧
  (List.filter is_report evs = [] ↔ out = Resolved tt) ∧
  ∃ n, n ≤ List.length steps ∧
       List.length (List.filter is_delete evs) = n ∧
       s' = after_deletes api (take n steps) s ∧
       (out = Resolved tt → n = List.length steps).
Proof.
  induction 1 as [s|st rest s s1 out s2 evs Hdel _
                    (Hevs & Hone & Hres & Hrep & n & Hn & Hlen & Hstore & Hall)
                 |st rest s e s1 Hdel].
  - split; [constructor|]. split; [simpl; lia|]. do 2 (split; [done|]).
    exists 0. repeat split; done || (simpl; lia).
  - split; [|split; [|split; [|split]]]; try done.
    + constructor.
      * left. exists st. split; [apply list_elem_of_here|done].
      * eapply Forall_impl; [exact Hevs|]. simpl.
        intros ev [(st' & Hin & ->)|(e & st' & Hin & -> & ->)].
        -- left. exists st'. split; [by apply list_elem_of_further|done].
        -- right. exists e, st'. split; [by apply list_elem_of_further|done].
    + exists (S n). simpl. unfold after_deletes in *. simpl. rewrite Hdel.
      simpl. repeat split; try lia; try done.
      intros Hout. by rewrite Hall.
  - split.
    { constructor.
      - left. exists st. split; [apply list_elem_of_here|done].
      - constructor; [|constructor]. right. exists e, st.
        split; [apply list_elem_of_here|done]. }
    split; [simpl; lia|]. split; [done|].
    split; [simpl; split; intros; discriminate|].
    exists 1. simpl. rewrite ?take_0. unfold after_deletes. simpl.
    rewrite Hdel. simpl. repeat split; try done; try lia.
Qed.

(** A run of the hook: the lookup of the affected ids, then nothing, or the
    cascade over the plan. *)
Lemma hook_run resource (dependents : list Dependent) args (w : World Store) :
  let lookup := getCurrentRequestAffectedIds args w in
  let w1 := lookup.2 in
  let run := addDeleteHookForDependents resource dependents args w in
  match settled lookup.1 with
  | Resolved [] => run = (Resolved tt, w1)
  | Resolved ids =>
      ∃ s' evs,
        run = (run.1, mkWorld (heap w1) s' (custom w1) (promises w1)
                              (transactions w1) (log w1 ++ evs)) ∧
        Cascade (hook_api args) (hook_req args) (plan resource ids dependents)
                (store w1) run.1 s' evs
  | Rejected e => run = (Rejected e, w1)
  end.
Proof.
  intros lookup w1 run. subst run.
  rewrite addDeleteHookForDependents_unfold. fold lookup. fold w1.
  destruct (settled lookup.1) as [[|id ids]|e]; try done.
  destruct (cascade_runs (hook_api args) (hook_req args)
              (plan resource (id :: ids) dependents) w1)
    as (out & s' & evs & Hrun & Hsteps).
  exists s', evs. rewrite Hrun. by split.
Qed.

(** X8. When the affected ids cannot be resolved, the hook fails with the
    reason of the resolution; it issues no delete and reports nothing to
    the sink. *)
Theorem hook_resolution_failure resource (dependents : list Dependent) args
    (w : World Store) (e : exn) :
  let lookup := getCurrentRequestAffectedIds args w in
  let run := addDeleteHookForDependents resource dependents args w in
  settled lookup.1 = Rejected e →
  run = (Rejected e, lookup.2) ∧
  List.filter is_delete (added w run.2) = [] ∧
  List.filter is_report (added w run.2) = [].
Proof.
  intros lookup run Hfail.
  pose proof (hook_run resource dependents args w) as Hrun.
  cbv zeta in Hrun. fold lookup run in Hrun. rewrite Hfail in Hrun. split; [done|].
  rewrite Hrun. simpl. unfold added.
  destruct (getCurrentRequestAffectedIds_cases args w) as [[_ Hw]|(_ & _ & Hw)];
    fold lookup in Hw; rewrite Hw; simpl.
  - by rewrite drop_all.
  - by rewrite drop_app_length.
Qed.

(** X9. After the lookup of the affected ids the hook issues deletes and
    nothing else: each one goes through the hook's own client and selects
    by the whole set of affected ids. It reports to the sink at most once,
    with the reason it then fails with, and it succeeds exactly when it
    reported nothing. *)
Theorem hook_only_deletes resource (dependents : list Dependent) args
    (ids : list Z) (w : World Store) :
  let lookup := getCurrentRequestAffectedIds args w in
  let run := addDeleteHookForDependents resource dependents args w in
  settled lookup.1 = Resolved ids →
  ∃ evs,
    log run.2 = log lookup.2 ++ evs ∧
    Forall (λ ev, (∃ name field,
                     ev = EvDelete (hook_api args) name (In_ field ids)) ∨
                  (∃ e message,
                     run.1 = Rejected e ∧
                     ev = EvCapture e message (hook_req args))) evs ∧
    List.length (List.filter is_report evs) ≤ 1 ∧
    (List.filter is_report evs = [] ↔ run.1 = Resolved tt).
Proof.
  intros lookup run Hids.
  pose proof (hook_run resource dependents args w) as Hrun.
  cbv zeta in Hrun. fold lookup run in Hrun. rewrite Hids in Hrun.
  destruct ids as [|id ids].
  - exists []. rewrite Hrun. simpl. rewrite app_nil_r.
    repeat split; done || (simpl; lia).
  - destruct Hrun as (s' & evs & Hrun & Hsteps).
    destruct (Cascade_shape _ _ _ _ _ _ _ Hsteps)
      as (Hevs & Hone & _ & Hrep & _).
    exists evs. rewrite Hrun at 1. simpl. repeat split; try done; try apply Hrep.
    eapply Forall_impl; [exact Hevs|]. simpl.
    intros ev [(st & Hin & ->)|(e & st & Hin & Hout & ->)].
    + left. destruct (plan_filters _ _ _ _ Hin) as [field Hfield].
      exists (step_resource st), field. unfold issue. by rewrite Hfield.
    + right. by exists e, (step_message st).
Qed.

(** X10. The hook leaves the heap and the transaction counter as they were,
    and of the request properties it touches those of its own request
    only, where the promise of the affected ids is found afterwards. *)
Theorem hook_frame resource (dependents : list Dependent) args
    (w : World Store) :
  let lookup := getCurrentRequestAffectedIds args w in
  let w' := (addDeleteHookForDependents resource dependents args w).2 in
  heap w' = heap w ∧ transactions w' = transactions w ∧
  custom w' !! request args = Some lookup.1 ∧
  ∀ r, r ≠ request args → custom w' !! r = custom w !! r.
Proof.
  intros lookup w'.
  assert (Hw' : heap w' = heap lookup.2 ∧
                transactions w' = transactions lookup.2 ∧
                custom w' = custom lookup.2).
  { pose proof (hook_run resource dependents args w) as Hrun.
    cbv zeta in Hrun. fold lookup in Hrun. subst w'.
    destruct (settled lookup.1) as [[|id ids]|e].
    - by rewrite Hrun.
    - destruct Hrun as (s' & evs & Hrun & _). by rewrite Hrun.
    - by rewrite Hrun. }
  destruct Hw' as (-> & -> & ->).
  pose proof (getCurrentRequestAffectedIds_stored args w) as Hstored.
  fold lookup in Hstored.
  destruct (getCurrentRequestAffectedIds_cases args w) as [[_ Hw]|(_ & _ & Hw)];
    fold lookup in Hw; repeat split; try done; rewrite Hw; try done.
  intros r Hr. simpl. by rewrite lookup_insert_ne.
Qed.

(** Where a run of the hook leaves the world: that of the lookup, with
    another store and a longer log in which no resolution appears. *)
Lemma hook_world resource (dependents : list Dependent) args (w : World Store) :
  let w1 := (getCurrentRequestAffectedIds args w).2 in
  let w' := (addDeleteHookForDependents resource dependents args w).2 in
  ∃ s' evs,
    w' = mkWorld (heap w1) s' (custom w1) (promises w1) (transactions w1)
                 (log w1 ++ evs) ∧
    List.filter is_resolution evs = [].
Proof.
  intros w1 w'. pose proof (hook_run resource dependents args w) as Hrun.
  cbv zeta in Hrun. fold w1 in Hrun. subst w'.
  destruct (settled _) as [[|id ids]|e].
  - exists (store w1), []. rewrite Hrun, app_nil_r. by destruct w1.
  - destruct Hrun as (s' & evs & Hrun & Hsteps). exists s', evs.
    rewrite Hrun. split; [done|].
    by destruct (Cascade_shape _ _ _ _ _ _ _ Hsteps) as (_ & _ & Hres & _).
  - exists (store w1), []. rewrite Hrun, app_nil_r. by destruct w1.
Qed.

(** What the lookup adds to the log: one resolution at most. *)
Lemma lookup_log args (w : World Store) :
  ∃ evs, log (getCurrentRequestAffectedIds args w).2 = log w ++ evs ∧
         List.length (List.filter is_resolution evs) ≤ 1.
Proof.
  destruct (getCurrentRequestAffectedIds_cases args w) as [[_ Hw]|(_ & _ & Hw)];
    rewrite Hw.
  - exists []. rewrite app_nil_r. split; [done|simpl; lia].
  - eexists. split; [reflexivity|simpl; lia].
Qed.

(** X11. Two hooks of one request, run one after the other, resolve the
    affected ids once: the second finds the promise the first left on the
    request, whatever its own arguments are. *)
Theorem hooks_share_resolution resource1 resource2
    (dependents1 dependents2 : list Dependent) args1 args2 (w : World Store) :
  request args2 = request args1 →
  let first := addDeleteHookForDependents resource1 dependents1 args1 w in
  let second :=
    addDeleteHookForDependents resource2 dependents2 args2 first.2 in
  getCurrentRequestAffectedIds args2 first.2 =
    ((getCurrentRequestAffectedIds args1 w).1, first.2) ∧
  List.length (List.filter is_resolution (added w second.2)) ≤ 1.
Proof.
  intros Hsame first second.
  destruct (hook_world resource1 dependents1 args1 w)
    as (s1 & evs1 & Hfirst & Hres1).
  fold first in Hfirst.
  pose proof (getCurrentRequestAffectedIds_stored args1 w) as Hstored.
  simpl in Hstored.
  assert (Hcached : getCurrentRequestAffectedIds args2 first.2 =
                    ((getCurrentRequestAffectedIds args1 w).1, first.2)).
  { unfold getCurrentRequestAffectedIds at 1. rewrite Hsame, Hfirst. simpl.
    by rewrite Hstored. }
  split; [done|].
  destruct (hook_world resource2 dependents2 args2 first.2)
    as (s2 & evs2 & Hsecond & Hres2).
  fold second in Hsecond. rewrite Hcached in Hsecond. simpl in Hsecond.
  destruct (lookup_log args1 w) as (evs0 & Hlog0 & Hone).
  unfold added. rewrite Hsecond. simpl. rewrite Hfirst. simpl.
  rewrite Hlog0, <- !app_assoc, drop_app_length.
  rewrite !List.filter_app, Hres1, Hres2, !app_nil_r. done.
Qed.

(** X12. The hook undoes nothing itself. With a non-empty set of affected
    ids, the store it leaves is the one the deletes it issued have made, in
    the order of the plan, the failed one included; when it succeeds that
    is the store after every delete of the plan. *)
Theorem hook_store_after_deletes resource (dependents : list Dependent) args
    (ids : list Z) (w : World Store) :
  let lookup := getCurrentRequestAffectedIds args w in
  let run := addDeleteHookForDependents resource dependents args w in
  let steps := plan resource ids dependents in
  let n := List.length (List.filter is_delete (added lookup.2 run.2)) in
  settled lookup.1 = Resolved ids → ids ≠ [] →
  n ≤ List.length steps ∧
  store run.2 = after_deletes (hook_api args) (take n steps) (store lookup.2) ∧
  (run.1 = Resolved tt →
   store run.2 = after_deletes (hook_api args) steps (store lookup.2)).
Proof.
  intros lookup run steps n Hids Hsome.
  pose proof (hook_run resource dependents args w) as Hrun.
  cbv zeta in Hrun. fold lookup run in Hrun. rewrite Hids in Hrun.
  destruct ids as [|id ids]; [done|].
  destruct Hrun as (s' & evs & Hrun & Hsteps). fold steps in Hsteps.
  destruct (Cascade_shape _ _ _ _ _ _ _ Hsteps)
    as (_ & _ & _ & _ & m & Hm & Hlen & Hstore & Hall).
  assert (Hn : n = m).
  { subst n. unfold added. rewrite Hrun. simpl. by rewrite drop_app_length. }
  assert (Hst : store run.2 = s') by (by rewrite Hrun).
  rewrite Hn, Hst. repeat split; try done.
  intros Hout. rewrite Hstore, (Hall Hout). by rewrite firstn_all.
Qed.

End CascadeMore.

(** ** The affected ids, again *)

Section AffectedIdsMore.
Context {Store : Type} `{Pinejs Store}.

(** X13. Requests do not share their affected ids: two requests that have
    none yet each get their own promise, resolved for their own arguments,
    and the promise of one stays on it when the other resolves. *)
Theorem affectedIds_per_request (a b : HookArgs) (w : World Store) :
  request a ≠ request b →
  custom w !! request a = None → custom w !! request b = None →
  let first := getCurrentRequestAffectedIds a w in
  let second := getCurrentRequestAffectedIds b first.2 in
  pid first.1 ≠ pid second.1 ∧
  settled first.1 = (pine_getAffectedIds a (store w)).1 ∧
  settled second.1 = (pine_getAffectedIds b (store first.2)).1 ∧
  custom second.2 !! request a = Some first.1 ∧
  custom second.2 !! request b = Some second.1 ∧
  added w second.2 = [EvAffectedIds a; EvAffectedIds b].
Proof.
  intros Hne Ha Hb first second.
  destruct (getCurrentRequestAffectedIds_cases a w)
    as [[Hc _]|(_ & Hp1 & Hw1)]; [congruence|].
  fold first in Hp1, Hw1.
  assert (Hb1 : custom first.2 !! request b = None).
  { rewrite Hw1. simpl. by rewrite lookup_insert_ne. }
  destruct (getCurrentRequestAffectedIds_cases b first.2)
    as [[Hc _]|(_ & Hp2 & Hw2)]; [congruence|].
  fold second in Hp2, Hw2.
  repeat split.
  - rewrite Hp1, Hp2, Hw1. simpl. lia.
  - by rewrite Hp1.
  - by rewrite Hp2.
  - rewrite Hw2. simpl. rewrite lookup_insert_ne by done.
    rewrite Hw1. simpl. by rewrite lookup_insert_eq.
  - rewrite Hw2. simpl. by rewrite lookup_insert_eq.
  - unfold added. rewrite Hw2. simpl. rewrite Hw1. simpl.
    by rewrite <- app_assoc, drop_app_length.
Qed.

End AffectedIdsMore.

(** ** Device configuration *)

Section DeviceConfigFacts.
Import DeviceConfig.
Context {S : Type} `{Node S}.

(** The read of the certificate of a named file, by what [stat] and
    [readFile] answer: a failure is swallowed, silently when the file is
    missing and after a report otherwise. *)
Lemma selfSignedRoot_run (file : string) (w : World S) :
  file ≠ "" →
  let stat := statAsync file (store w) in
  let read := readFileAsync file "utf8" stat.2 in
  let swallow e s :=
    if is_ENOENT e then s
    else report e "Self-signed root CA could not be read" s in
  selfSignedRoot (Some file) w =
  match stat.1, read.1 with
  | Rejected e, _ => (Resolved None, with_store (swallow e stat.2) w)
  | Resolved _, Rejected e => (Resolved None, with_store (swallow e read.2) w)
  | Resolved _, Resolved pem =>
      (Resolved (Some (base64 pem)), with_store read.2 w)
  end.
Proof.
  intros Hfile stat read swallow. subst stat read swallow.
  destruct file as [|c file]; [done|].
  unfold selfSignedRoot, catchAll, catchWhen, andThen, fs, captureUnread,
    resolve, with_store. simpl.
  destruct (statAsync _ _) as [[[]|e] s1]; simpl.
  - destruct (readFileAsync _ _ _) as [[pem|e] s2]; simpl; [done|].
    by destruct (is_ENOENT e).
  - by destruct (is_ENOENT e).
Qed.

(** X14. The read of the self-signed root certificate never fails. It
    yields a certificate exactly when a file is configured and both [stat]
    and [readFile] succeed on it, and the certificate is then the base64 of
    what was read. *)
Theorem selfSignedRoot_never_rejects (caFile : option string) (w : World S) :
  ∃ rootCA,
    (selfSignedRoot caFile w).1 = Resolved rootCA ∧
    ∀ ca, rootCA = Some ca ↔
          ∃ file pem,
            caFile = Some file ∧ file ≠ "" ∧
            (statAsync file (store w)).1 = Resolved tt ∧
            (readFileAsync file "utf8" (statAsync file (store w)).2).1 =
              Resolved pem ∧
            ca = base64 pem.
Proof.
  destruct caFile as [file|].
  2: { exists None. split; [done|]. intros ca. split; [done|].
       by intros (file & pem & ? & _). }
  destruct (decide (file = "")) as [->|Hfile].
  { exists None. split; [done|]. intros ca. split; [done|].
    by intros (file & pem & [= <-] & ? & _). }
  rewrite (selfSignedRoot_run file w Hfile). simpl.
  destruct (statAsync file (store w)) as [[[]|e] s1] eqn:Hstat; simpl.
  - destruct (readFileAsync file "utf8" s1) as [[pem|e] s2] eqn:Hread; simpl.
    + eexists. split; [done|]. intros ca. split.
      * intros [= <-]. exists file, pem. rewrite Hstat. simpl. by rewrite Hread.
      * intros (file' & pem' & [= <-] & _ & _ & Hpem & ->).
        rewrite Hstat in Hpem. simpl in Hpem. rewrite Hread in Hpem.
        simpl in Hpem. by injection Hpem as ->.
    + exists None. split; [done|]. intros ca. split; [done|].
      intros (file' & pem' & [= <-] & _ & _ & Hpem & _).
      rewrite Hstat in Hpem. simpl in Hpem. by rewrite Hread in Hpem.
  - exists None. split; [done|]. intros ca. split; [done|].
    intros (file' & pem' & [= <-] & _ & Hok & _). by rewrite Hstat in Hok.
Qed.

(** X15. With no file configured the read touches nothing. With one, a
    failure of [stat] or of [readFile] whose code is ENOENT is swallowed
    without a word, and any other failure is reported to the sink once,
    as it is. *)
Theorem selfSignedRoot_reports (caFile : option string) (w : World S) :
  let unread := "Self-signed root CA could not be read" in
  ((caFile = None ∨ caFile = Some "") → selfSignedRoot caFile w = (Resolved None, w)) ∧
  ∀ file e s,
    caFile = Some file → file ≠ "" →
    let stat := statAsync file (store w) in
    let read := readFileAsync file "utf8" stat.2 in
    (stat = (Rejected e, s) ∨ (stat.1 = Resolved tt ∧ read = (Rejected e, s))) →
    store (selfSignedRoot caFile w).2 =
      if is_ENOENT e then s else report e unread s.
Proof.
  intros unread. split.
  - by intros [->| ->].
  - intros file e s -> Hfile stat read Hfail.
    rewrite (selfSignedRoot_run file w Hfile). fold stat read.
    destruct Hfail as [Hstat|[Hstat Hread]].
    + rewrite Hstat. simpl. by destruct (is_ENOENT e).
    + rewrite Hstat, Hread. simpl. by destruct (is_ENOENT e).
Qed.

End DeviceConfigFacts.

Section ConfigOptions.
Import DeviceConfig.

Lemma prop_put_eq (config : list (string * option json)) k v :
  prop (put config k v) k = Some v.
Proof.
  induction config as [|[k' v'] config IH]; simpl.
  - by rewrite String.eqb_refl.
  - destruct (String.eqb_spec k' k) as [->|Hne]; simpl.
    + by rewrite String.eqb_refl.
    + destruct (String.eqb_spec k' k); [done|apply IH].
Qed.

Lemma prop_put_ne (config : list (string * option json)) k k' v :
  k ≠ k' → prop (put config k v) k' = prop config k'.
Proof.
  intros Hne. induction config as [|[k0 v0] config IH]; simpl.
  - destruct (String.eqb_spec k k'); done.
  - destruct (String.eqb_spec k0 k) as [->|Hk]; simpl.
    + destruct (String.eqb_spec k k'); done.
    + destruct (String.eqb_spec k0 k'); [done|apply IH].
Qed.

(** After the copy, a key named by one of the options holds what the
    request has for it and any other key is as before. *)
Lemma prop_copied (param : string → option json) (opts : list DeviceTypeOption)
    (config : list (string * option json)) k :
  prop (fold_left (λ config opt, put config (name opt) (param (name opt)))
                  opts config) k =
  if decide (k ∈ map name opts) then Some (param k) else prop config k.
Proof.
  revert config. induction opts as [|opt opts IH]; intros config.
  - simpl. destruct (decide (k ∈ [])) as [Hin|_]; [|done].
    by apply elem_of_nil in Hin.
  - cbn [fold_left map]. rewrite IH.
    destruct (decide (k ∈ map name opts)) as [Hin|Hout].
    + rewrite decide_True; [done|by apply list_elem_of_further].
    + destruct (decide (name opt = k)) as [<-|Hne].
      * rewrite decide_True by apply list_elem_of_here. apply prop_put_eq.
      * rewrite decide_False; [by apply prop_put_ne|].
        intros [?|?]%elem_of_cons; congruence.
Qed.

(** The names the [flatMap] leaves: those of the options that are no
    groups and those of the members of the groups other than [network] and
    [advanced]. *)
Lemma expanded_names (opts : list DeviceTypeOption) k :
  k ∈ map name (flat_map expand opts) ↔
  ∃ opt, opt ∈ opts ∧
         ((isGroup opt = false ∧ name opt = k) ∨
          (isGroup opt = true ∧ handled_above (name opt) = false ∧
           ∃ member, member ∈ options opt ∧ name member = k)).
Proof.
  rewrite list_elem_of_In, in_map_iff. split.
  - intros (member & <- & Hin). apply in_flat_map in Hin as (opt & Hopt & Hin).
    exists opt. split; [by apply list_elem_of_In|].
    unfold expand in Hin.
    destruct (isGroup opt) eqn:Hgroup; simpl in Hin.
    + destruct (handled_above (name opt)) eqn:Hhandled; [done|].
      right. repeat split. exists member. by rewrite list_elem_of_In.
    + destruct Hin as [<-|[]]. by left.
  - intros (opt & Hopt & Hcase). apply list_elem_of_In in Hopt.
    destruct Hcase as [[Hgroup <-]|(Hgroup & Hhandled & member & Hin & <-)].
    + exists opt. split; [done|]. apply in_flat_map. exists opt.
      split; [done|]. unfold expand. rewrite Hgroup. by left.
    + exists member. split; [done|]. apply in_flat_map. exists opt.
      split; [done|]. unfold expand. rewrite Hgroup, Hhandled. simpl.
      by apply list_elem_of_In.
Qed.

(** X16. What the configuration holds once the options are copied. The
    root certificate, when there is one, is under [balenaRootCA]. Any other
    key holds what the request has for it when it names an option that is
    no group, or a member of a group other than [network] and [advanced]
    (a member that is itself a group counts as an option: its own members
    are not looked at); otherwise the key is as [generate] left it. *)
Theorem fillConfig_prop (param : string → option json)
    (opts : list DeviceTypeOption) (rootCA : option string)
    (config : list (string * option json)) (k : string) :
  let copied :=
    ∃ opt, opt ∈ opts ∧
           ((isGroup opt = false ∧ name opt = k) ∨
            (isGroup opt = true ∧ handled_above (name opt) = false ∧
             ∃ member, member ∈ options opt ∧ name member = k)) in
  let result := fillConfig param opts rootCA config in
  (∀ ca, rootCA = Some ca → k = "balenaRootCA" →
         prop result k = Some (Some (JStr ca))) ∧
  (rootCA = None ∨ k ≠ "balenaRootCA" →
   (copied → prop result k = Some (param k)) ∧
   (¬ copied → prop result k = prop config k)).
Proof.
  intros copied result. subst result. unfold fillConfig. split.
  - intros ca -> ->. apply prop_put_eq.
  - intros Hother.
    assert (Hprop :
      prop (match rootCA with
            | Some ca =>
                put (fold_left (λ config opt,
                                  put config (name opt) (param (name opt)))
                               (flat_map expand opts) config)
                    "balenaRootCA" (Some (JStr ca))
            | None =>
                fold_left (λ config opt,
                             put config (name opt) (param (name opt)))
                          (flat_map expand opts) config
            end) k =
      if decide (k ∈ map name (flat_map expand opts)) then Some (param k)
      else prop config k).
    { destruct rootCA as [ca|]; [|apply prop_copied].
      destruct Hother as [|Hk]; [done|].
      rewrite prop_put_ne by congruence. apply prop_copied. }
    rewrite Hprop. split; intros Hcopied.
    + rewrite decide_True; [done|]. by apply expanded_names.
    + rewrite decide_False; [done|]. by rewrite expanded_names.
Qed.

End ConfigOptions.

(** ** createActor *)

Section Actor.
Import DeviceConfig.
Context {Store : Type} `{Pinejs Store}.

(** X17. [createActor] posts one [actor] to [Auth], as [root] and in the
    transaction of the hook, and does nothing else. When the post succeeds
    the [actor] value of the request is the id the store answered with and
    every other value is as it was; when the post fails the hook fails
    with the same reason. *)
Theorem createActor_sets_actor (args : HookArgs)
    (values : list (string * option json)) (w : World Store) :
  let api := mkClient Auth (Some (mkPassthrough root (hook_tx args))) in
  let posted := pine_post api "actor" [] false (store w) in
  let run := createActor args values w in
  run.2 = mkWorld (heap w) posted.2 (custom w) (promises w) (transactions w)
                  (log w ++ [EvPost api "actor" [] false]) ∧
  (∀ e, posted.1 = Rejected e → run.1 = Rejected e) ∧
  (∀ result, posted.1 = Resolved result →
     ∃ values', run.1 = Resolved values' ∧
                prop values' "actor" = Some (Lodash.get result "id") ∧
                ∀ k, k ≠ "actor" → prop values' k = prop values k).
Proof.
  intros api posted run. subst run.
  unfold createActor, andThen, api_post, call, resolve, record, with_store.
  simpl. fold api. fold posted. destruct posted as [[result|e] s1]; simpl.
  - split; [done|]. split; [done|]. intros ? [= <-]. eexists.
    split; [done|]. split; [apply prop_put_eq|].
    intros k Hk. by apply prop_put_ne.
  - split; [done|]. split; [|done]. by intros ? [= <-].
Qed.

End Actor.

(** ** More sample requests *)

Section OnMoreSamples.
Import Memory Offline Samples Cases DeviceConfig.

Lemma getOrInsertId_body_wins_witness :
  ∃ o, (_getOrInsertId authApi "user" 0 None no_ada).1 = Resolved o ∧
       Lodash.get o "name" = Some (JStr "ada") ∧
       Lodash.get o "id" = Some (JNum 1).
Proof.
  assert (Hfields : NoDup by_name.*1) by apply NoDup_singleton.
  assert (HidObj : NoDup [("id", JNum 1)].*1) by apply NoDup_singleton.
  destruct (getOrInsertId_body_wins authApi "user" 0 None no_ada
              [("id", JNum 1)] Hfields HidObj ltac:(by vm_compute) ltac:(by vm_compute))
    as (o & Hrun & Hget).
  exists o. split; [done|]. by rewrite !Hget.
Defined.

Lemma getOrInsertId_query_failure_witness :
  (_getOrInsertId authApi "user" 0 None Offline.cut_off).1 =
    Rejected Offline.offline ∧
  List.filter is_write
    (log (_getOrInsertId authApi "user" 0 None Offline.cut_off).2) = [].
Proof.
  rewrite (getOrInsertId_query_failure authApi "user" 0 None Offline.cut_off
             Offline.offline ltac:(by vm_compute)).
  by split.
Defined.

Lemma updateOrInsert_query_failure_witness :
  (_updateOrInsert authApi "user" 0 1 None Offline.cut_off).1 =
    Rejected Offline.offline ∧
  heap (_updateOrInsert authApi "user" 0 1 None Offline.cut_off).2 =
    caller_heap.
Proof.
  rewrite (updateOrInsert_query_failure authApi "user" 0 1 None
             Offline.cut_off Offline.offline ltac:(by vm_compute)).
  by split.
Defined.

Lemma updateOrInsert_frame_witness :
  let w' := (_updateOrInsert authApi "user" 0 0 None no_ada).2 in
  heap w' !! 0 = Some by_name ∧ heap w' !! 1 = Some new_email ∧
  List.length (heap w') = 3 ∧
  heap (_updateOrInsert authApi "user" 0 0 None one_ada).2 = caller_heap.
Proof.
  destruct (updateOrInsert_frame authApi "user" 0 0 None no_ada)
    as (Hsame & Hgrows & _).
  destruct (updateOrInsert_frame authApi "user" 0 0 None one_ada)
    as (_ & _ & Hkept & _).
  assert (H0 : 0 < List.length caller_heap) by (simpl; lia).
  assert (H1 : 1 < List.length caller_heap) by (simpl; lia).
  split; [by rewrite (Hsame 0 H0)|]. split; [by rewrite (Hsame 1 H1)|].
  split; [by rewrite (Hgrows ltac:(by vm_compute))|].
  by rewrite Hkept.
Defined.

Lemma updateOrInsert_writes_by_case_witness :
  List.filter is_post
    (added two_adas (_updateOrInsert authApi "user" 0 1 None two_adas).2) = [] ∧
  List.filter is_patch
    (added two_adas (_updateOrInsert authApi "user" 0 1 None two_adas).2) = [].
Proof.
  destruct (updateOrInsert_writes_by_case authApi "user" 0 1 None two_adas)
    as ([Hpost _] & [Hpatch _] & _).
  split.
  - destruct (List.filter is_post _) as [|ev evs]; [done|].
    by specialize (Hpost ltac:(done)).
  - destruct (List.filter is_patch _) as [|ev evs]; [done|].
    by destruct (Hpatch ltac:(done)) as [row Hrow].
Defined.

Lemma hook_resolution_failure_witness :
  let run :=
    addDeleteHookForDependents "device" device_dependents delete_args
                               resolving_badly in
  run.1 = Rejected timeout ∧ rows (store run.2) = fleet ∧
  List.filter is_delete (added resolving_badly run.2) = [].
Proof.
  assert (Hfail :
    settled (getCurrentRequestAffectedIds delete_args resolving_badly).1 =
    Rejected timeout) by (vm_compute; reflexivity).
  destruct (hook_resolution_failure "device" device_dependents delete_args
              resolving_badly timeout Hfail) as (Hrun & Hnone & _).
  split; [by rewrite Hrun|]. split; [by rewrite Hrun|done].
Defined.

Lemma hook_only_deletes_witness :
  let run :=
    addDeleteHookForDependents "device" device_dependents delete_args
                               deleting_broken in
  ∃ evs, List.length (List.filter is_report evs) ≤ 1 ∧
         Forall (λ ev, is_post ev = false ∧ is_patch ev = false) evs ∧
         log run.2 =
           log (getCurrentRequestAffectedIds delete_args deleting_broken).2
           ++ evs.
Proof.
  assert (Hids :
    settled (getCurrentRequestAffectedIds delete_args deleting_broken).1 =
    Resolved [5%Z]) by (vm_compute; reflexivity).
  destruct (hook_only_deletes "device" device_dependents delete_args [5%Z]
              deleting_broken Hids) as (evs & Hlog & Hevs & Hone & _).
  exists evs. split; [done|]. split; [|done].
  eapply Forall_impl; [exact Hevs|]. simpl.
  by intros ev [(? & ? & ->)|(? & ? & _ & ->)].
Defined.

Lemma hook_frame_witness :
  let w' :=
    (addDeleteHookForDependents "device" device_dependents delete_args
                                deleting).2 in
  custom w' !! 1 = None ∧ heap w' = [].
Proof.
  destruct (hook_frame "device" device_dependents delete_args deleting)
    as (Hheap & _ & _ & Hothers).
  split; [|done].
  assert (Hne : 1 ≠ request delete_args) by (simpl; lia).
  by rewrite (Hothers 1 Hne).
Defined.

Lemma hooks_share_resolution_witness :
  let first :=
    addDeleteHookForDependents "device" device_dependents delete_args
                               deleting_broken in
  let second :=
    addDeleteHookForDependents "application" application_dependents other_args
                               first.2 in
  request other_args = request delete_args ∧
  List.length (List.filter is_resolution (added deleting_broken second.2)) ≤ 1.
Proof.
  assert (Hsame : request other_args = request delete_args) by reflexivity.
  split; [done|].
  by destruct (hooks_share_resolution "device" "application" device_dependents
                 application_dependents delete_args other_args deleting_broken
                 Hsame) as [_ Hone].
Defined.

Lemma hook_store_after_deletes_witness :
  let lookup := getCurrentRequestAffectedIds delete_args deleting_broken in
  let run :=
    addDeleteHookForDependents "device" device_dependents delete_args
                               deleting_broken in
  ∃ n, n ≤ 3 ∧
       store run.2 =
         after_deletes (hook_api delete_args)
                       (take n (plan "device" [5%Z] device_dependents))
                       (store lookup.2).
Proof.
  assert (Hids :
    settled (getCurrentRequestAffectedIds delete_args deleting_broken).1 =
    Resolved [5%Z]) by (vm_compute; reflexivity).
  assert (Hsome : [5%Z] ≠ []) by discriminate.
  destruct (hook_store_after_deletes "device" device_dependents delete_args
              [5%Z] deleting_broken Hids Hsome) as (Hn & Hstore & _).
  eexists. split; [exact Hn|exact Hstore].
Defined.

Lemma affectedIds_per_request_witness :
  let first := getCurrentRequestAffectedIds delete_args resolving_badly in
  let second := getCurrentRequestAffectedIds elsewhere_args first.2 in
  settled first.1 = Rejected timeout ∧ settled second.1 = Resolved [5%Z] ∧
  pid first.1 ≠ pid second.1.
Proof.
  assert (Hne : request delete_args ≠ request elsewhere_args)
    by (simpl; lia).
  assert (Ha : custom resolving_badly !! request delete_args = None)
    by (vm_compute; reflexivity).
  assert (Hb : custom resolving_badly !! request elsewhere_args = None)
    by (vm_compute; reflexivity).
  destruct (affectedIds_per_request delete_args elsewhere_args resolving_badly
              Hne Ha Hb) as (Hpid & Hfirst & Hsecond & _).
  split; [by rewrite Hfirst|]. split; [|done].
  rewrite Hsecond. by vm_compute.
Defined.

Lemma selfSignedRoot_never_rejects_witness :
  (selfSignedRoot (Some "/etc/ca.pem") machine).1 =
    Resolved (Some "b64:PEM") ∧
  ∃ rootCA,
    (selfSignedRoot (Some "/root/ca.pem") machine).1 =
      Resolved rootCA.
Proof.
  split.
  - destruct (selfSignedRoot_never_rejects
                (S := disk) (Some "/etc/ca.pem")
                machine) as (rootCA & -> & Hca).
    f_equal. apply Hca. by exists "/etc/ca.pem", "PEM".
  - destruct (selfSignedRoot_never_rejects
                (S := disk) (Some "/root/ca.pem")
                machine) as (rootCA & Hrun & _).
    by exists rootCA.
Defined.

Lemma selfSignedRoot_reports_witness :
  store (selfSignedRoot (Some "/tmp/none.pem")
           machine).2 = ("/etc/ca.pem", "PEM", 0) ∧
  store (selfSignedRoot (Some "/root/ca.pem")
           machine).2 = ("/etc/ca.pem", "PEM", 1).
Proof.
  split.
  - destruct (selfSignedRoot_reports (S := disk)
                (Some "/tmp/none.pem") machine) as [_ Hfail].
    by rewrite (Hfail "/tmp/none.pem" missing
                  ("/etc/ca.pem", "PEM", 0) ltac:(by vm_compute) ltac:(done)
                  ltac:(by left)).
  - destruct (selfSignedRoot_reports (S := disk)
                (Some "/root/ca.pem") machine) as [_ Hfail].
    by rewrite (Hfail "/root/ca.pem" denied
                  ("/etc/ca.pem", "PEM", 0) ltac:(by vm_compute) ltac:(done)
                  ltac:(by left)).
Defined.

Lemma fillConfig_prop_witness :
  let result :=
    fillConfig sent raspberrypi_options
                            (Some "b64:PEM") generated in
  prop result "balenaRootCA" = Some (Some (JStr "b64:PEM")) ∧
  prop result "hostname" = Some (Some (JStr "pi")) ∧
  prop result "partitions" = Some (Some (JNum 2)) ∧
  prop result "wifiSsid" = Some (Some (JStr "home")).
Proof.
  split; [|split; [|split]].
  - destruct (fillConfig_prop sent
                raspberrypi_options (Some "b64:PEM") generated
                "balenaRootCA") as [Hca _].
    by apply Hca.
  - destruct (fillConfig_prop sent
                raspberrypi_options (Some "b64:PEM") generated
                "hostname") as [_ Hother].
    destruct (Hother ltac:(by right)) as [Hcopied _]. apply Hcopied.
    exists (mkOption false "hostname" []).
    split; [|by left]. unfold raspberrypi_options.
    do 3 apply list_elem_of_further. apply list_elem_of_here.
  - destruct (fillConfig_prop sent
                raspberrypi_options (Some "b64:PEM") generated
                "partitions") as [_ Hother].
    destruct (Hother ltac:(by right)) as [Hcopied _]. apply Hcopied.
    exists (mkOption true "storage"
              [mkOption false "disk" [];
               mkOption true "partitions" [mkOption false "boot" []]]).
    split.
    + unfold raspberrypi_options.
      do 2 apply list_elem_of_further. apply list_elem_of_here.
    + right. repeat split.
      exists (mkOption true "partitions" [mkOption false "boot" []]).
      split; [|reflexivity]. simpl.
      apply list_elem_of_further, list_elem_of_here.
  - destruct (fillConfig_prop sent
                raspberrypi_options (Some "b64:PEM") generated
                "wifiSsid") as [_ Hother].
    destruct (Hother ltac:(by right)) as [_ Hkept]. rewrite Hkept; [done|].
    intros (opt & Hin & Hcase).
    unfold raspberrypi_options in Hin.
    repeat (apply elem_of_cons in Hin as [->|Hin]);
      [..|by apply elem_of_nil in Hin]; simpl in Hcase;
      destruct Hcase as [[? ?]|(? & ? & member & Hm & Hname)]; try done.
    repeat (apply elem_of_cons in Hm as [->|Hm]);
      [..|by apply elem_of_nil in Hm]; done.
Defined.

Lemma createActor_sets_actor_witness :
  let run := createActor delete_args [("custom", Some (JNum 1))] no_ada in
  ∃ values', run.1 = Resolved values' ∧
             prop values' "actor" = Some (Some (JNum 1)) ∧
             prop values' "custom" = Some (Some (JNum 1)).
Proof.
  destruct (createActor_sets_actor delete_args [("custom", Some (JNum 1))]
              no_ada) as (_ & _ & Hok).
  destruct (Hok [("id", JNum 1)] ltac:(by vm_compute))
    as (values' & Hrun & Hactor & Hothers).
  exists values'. split; [done|]. split; [done|].
  by rewrite Hothers.
Defined.

End OnMoreSamples.
